(** * Veins: a websocket subscription manager (veins-js)

    Shallow embedding of [src/src/wshelper.ts], which holds the helper
    [WSHelper] and the class [Veins].

    The class is event driven: the host (browser) calls its handlers when a
    promise settles, a socket event arrives or a timer fires, and the caller
    calls [subscribe] and [unsubscribe].  Every handler is embedded as a pure
    function from the instance's fields to the new fields and the list of
    calls it makes to the host, in program order ([Effect]).  Values the
    handler reads from the host ([readyState], the id [setInterval] returns,
    ['WebSocket' in window]) are arguments.  [World] adds the host's side
    (sockets, timers, pending promises) and [step] runs one event.

    Conventions of the embedding:
    - functions are compared by identity in the source ([===]); a callback
      is its identity, a [nat]; calling it is an [Effect], and its body is
      the caller's code: it is taken to return, and not to re-enter the
      manager while a message is being dispatched;
    - [this.keys] is a plain object used as a map: an association list of
      its own properties in creation order; names inherited from
      [Object.prototype] are outside the model;
    - [JSON.stringify(x)] is recorded as the value [x] handed to it;
      [JSON.parse] is the host's, a function that yields a [MessageStruct]
      (the type the source gives its result) or fails with [SyntaxError];
    - [error.code] is an integer below 10^21 in magnitude, which the
      template literal prints in decimal, and [error.msg] a string;
    - [WSHelper] is called with a valid URL: [new WebSocket(url)] returns. *)

From Stdlib Require Import String Ascii List ZArith NArith Bool Lia.
From Stdlib Require Import Permutation DecimalString.
Import ListNotations.
Open Scope string_scope.
Open Scope list_scope.
Set Warnings "-register-all".

(** ** Values *)

(** What [JSON.stringify] receives and what [data] carries. *)
Inductive JSON : Type :=
| JNull
| JBool (b : bool)
| JNum (z : Z)
| JStr (s : string)
| JArr (items : list JSON)
| JObj (fields : list (string * JSON)).

Definition authCallback := nat.
Definition errorCallback := nat.
Definition messageCallback := nat.

Module Msg.
(** [MessageStruct.error] *)
Record ErrorStruct : Type := { code : Z; msg : string }.

(** [MessageStruct]: [data?], [error?], [key]. *)
Record MessageStruct : Type :=
  { data : option JSON; error : option ErrorStruct; key : string }.
End Msg.
Definition MessageStruct : Type := Msg.MessageStruct.

(** [WebSocket | null | false]; only a socket object is truthy. *)
Inductive Socket : Type :=
| SNull
| SFalse
| SObj (id : nat).

(** The closures [Veins._open] hands to [WSHelper]. *)
Inductive Handler : Type :=
| bound_sockOpen (auth : string)   (* _sockOpen.bind(_this, auth) *)
| bound_sockMessage                (* _sockMessage.bind(_this) *)
| bound_sockClose.                 (* _sockClose.bind(_this) *)

(** [ConfStruct]: every hook is optional. *)
Record ConfStruct : Type :=
  { conf_close : option Handler;
    conf_error : option Handler;
    conf_message : option Handler;
    conf_open : option Handler }.

Inductive Exception : Type :=
| SyntaxError.

(** Calls made to the host, and what reaches it. *)
Inductive Effect : Type :=
| auth_call (f : authCallback)
| console_error (text : string)
| console_log (text : string)
| new_WebSocket (id : nat) (url : string) (conf : ConfStruct) (debug : bool)
| send (sock : nat) (payload : JSON)
| socket_close (sock : nat) (code : Z) (reason : string)
| setInterval (id : Z) (ms : Z)
| clearInterval (id : Z)
| setTimeout (ms : Z)
| error_call (f : errorCallback) (arg : string)
| callback_call (f : messageCallback) (arg : option JSON)
| readAsText (blob : string)
| uncaught (e : Exception).

(** A handler returns or throws. *)
Inductive Completion (A : Type) : Type :=
| Normal (a : A)
| Throw (e : Exception).
Arguments Normal {A} a.
Arguments Throw {A} e.

(** ** The object [this.keys] *)

Definition Keys := list (string * list messageCallback).

(** [k in o] *)
Definition key_in (k : string) (o : Keys) : bool :=
  existsb (fun p => String.eqb (fst p) k) o.

(** [o[k]], read by the source only after [k in o]. *)
Fixpoint get (k : string) (o : Keys) : list messageCallback :=
  match o with
  | [] => []
  | (k', l) :: r => if String.eqb k' k then l else get k r
  end.

(** [o[k] = l]: an existing property keeps its place, a new one goes last. *)
Fixpoint obj_set (k : string) (l : list messageCallback) (o : Keys) : Keys :=
  match o with
  | [] => [(k, l)]
  | (k', l') :: r =>
      if String.eqb k' k then (k', l) :: r else (k', l') :: obj_set k l r
  end.

(** [delete o[k]] *)
Definition obj_delete (k : string) (o : Keys) : Keys :=
  filter (fun p => negb (String.eqb (fst p) k)) o.

(** An array index: a canonical numeric string below 2^32 - 1. *)
Definition array_index (s : string) : option N :=
  match NilEmpty.uint_of_string s with
  | Some u =>
      if String.eqb (NilZero.string_of_uint (Decimal.unorm u)) s
      then if (N.of_uint u <? 4294967295)%N then Some (N.of_uint u) else None
      else None
  | None => None
  end.

Fixpoint insert_index (p : N * string) (l : list (N * string))
  : list (N * string) :=
  match l with
  | [] => [p]
  | q :: r => if (fst p <=? fst q)%N then p :: l else q :: insert_index p r
  end.

Definition sort_index (l : list (N * string)) : list (N * string) :=
  fold_right insert_index [] l.

Definition index_keys (ks : list string) : list (N * string) :=
  flat_map (fun k => match array_index k with
                     | Some n => [(n, k)]
                     | None => []
                     end) ks.

Definition name_keys (ks : list string) : list string :=
  filter (fun k => match array_index k with Some _ => false | None => true end)
         ks.

(** [Object.keys(o)]: array indices ascending, then the other names in
    creation order. *)
Definition Object_keys (o : Keys) : list string :=
  map snd (sort_index (index_keys (map fst o))) ++ name_keys (map fst o).

(** Modelled from the spec: [empty] is imported from [@ouroboros/tools],
    which is not part of the sources; the spec reads the test as "the
    Registry is now completely empty". *)
Definition empty (o : Keys) : bool :=
  match o with [] => true | _ => false end.

(** The loop of [unsubscribe]: the first index whose element is the
    callback. *)
Fixpoint indexOf (callback : messageCallback) (l : list messageCallback)
  : option nat :=
  match l with
  | [] => None
  | f :: r =>
      if Nat.eqb callback f then Some 0%nat
      else option_map S (indexOf callback r)
  end.

(** [l.splice(i, 1)] *)
Definition splice1 (i : nat) (l : list messageCallback)
  : list messageCallback :=
  firstn i l ++ skipn (S i) l.

(** Template-literal conversion of an integer. *)
Definition number_to_string (z : Z) : string :=
  NilZero.string_of_int (Z.to_int z).

(** ** WSHelper *)

(** What an [on...] property installed by [WSHelper] does with an event. *)
Inductive HookAction : Type :=
| Invoke (h : Handler)
| LogEvent
| Ignore.

Definition WSHelper_hook (h : option Handler) (debug : bool) : HookAction :=
  match h with
  | Some f => Invoke f
  | None => if debug then LogEvent else Ignore
  end.

(** [WSHelper(url, conf, debug)]; [conf] is an object at its only call. *)
Definition WSHelper (WebSocket_in_window : bool) (fresh : nat)
    (url : string) (conf : ConfStruct) (debug : bool)
  : Socket * list Effect :=
  if negb WebSocket_in_window
  then (SFalse, [console_error "websocket: WebSockets not supported"])
  else (SObj fresh, [new_WebSocket fresh url conf debug]).

(** ** The class Veins *)

Record Veins : Type :=
  { auth : authCallback;
    close : bool;
    error : option errorCallback;
    keys : Keys;
    ping : Z;
    socket : Socket;
    url : string }.

Definition set_close (b : bool) (v : Veins) : Veins :=
  {| auth := auth v; close := b; error := error v; keys := keys v;
     ping := ping v; socket := socket v; url := url v |}.

Definition set_error (e : option errorCallback) (v : Veins) : Veins :=
  {| auth := auth v; close := close v; error := e; keys := keys v;
     ping := ping v; socket := socket v; url := url v |}.

Definition set_keys (o : Keys) (v : Veins) : Veins :=
  {| auth := auth v; close := close v; error := error v; keys := o;
     ping := ping v; socket := socket v; url := url v |}.

Definition set_ping (p : Z) (v : Veins) : Veins :=
  {| auth := auth v; close := close v; error := error v; keys := keys v;
     ping := p; socket := socket v; url := url v |}.

Definition set_socket (s : Socket) (v : Veins) : Veins :=
  {| auth := auth v; close := close v; error := error v; keys := keys v;
     ping := ping v; socket := s; url := url v |}.

(** [new Veins(url, auth, error)] *)
Definition constructor (u : string) (a : authCallback)
    (e : option errorCallback) : Veins :=
  {| auth := a; close := true; error := e; keys := []; ping := 0;
     socket := SNull; url := u |}.

Definition connect_msg (token : string) : JSON :=
  JObj [("_type", JStr "connect"); ("key", JStr token)].

Definition track_msg (k : string) : JSON :=
  JObj [("_type", JStr "track"); ("key", JStr k)].

Definition untrack_msg (k : string) : JSON :=
  JObj [("_type", JStr "untrack"); ("key", JStr k)].

Definition ping_msg : JSON :=
  JObj [("_type", JStr "ping")].

(** [_open()]: calls [this.auth()]; its [then] callback is [_open_then]. *)
Definition _open (v : Veins) : list Effect :=
  [auth_call (auth v)].

(** The hooks [_open] passes to [WSHelper]. *)
Definition _open_conf (token : string) : ConfStruct :=
  {| conf_close := Some bound_sockClose;
     conf_error := None;
     conf_message := Some bound_sockMessage;
     conf_open := Some (bound_sockOpen token) |}.

(** The callback of [this.auth().then(...)], run with the token. *)
Definition _open_then (WebSocket_in_window : bool) (fresh_sock : nat)
    (fresh_timer : Z) (token : string) (v : Veins) : Veins * list Effect :=
  let (s, e1) :=
    WSHelper WebSocket_in_window fresh_sock (url v) (_open_conf token) false in
  let v1 := set_socket s v in
  match s with
  | SFalse =>
      (v1, e1 ++ match error v1 with
                 | Some f => [error_call f "Websockets not supported"]
                 | None => []
                 end)
  | _ =>
      if (ping v1 =? 0)%Z
      then (set_ping fresh_timer v1, e1 ++ [setInterval fresh_timer 300000])
      else (v1, e1)
  end.

(** The callback of the interval set by [_open]. *)
Definition ping_tick (v : Veins) : list Effect :=
  match socket v with
  | SObj id => [send id ping_msg]
  | _ => []
  end.

(** [_sockClose()]; the callback of its timeout is [_open]. *)
Definition _sockClose (v : Veins) : Veins * list Effect :=
  let e1 := if negb (ping v =? 0)%Z then [clearInterval (ping v)] else [] in
  if close v
  then (set_socket SNull v, e1)
  else (set_close true v, e1 ++ [setTimeout 5000]).

(** [handleMsg(msg)], the inner function of [_sockMessage]. *)
Definition handleMsg (v : Veins) (m : MessageStruct) : list Effect :=
  match Msg.error m with
  | Some e =>
      match error v with
      | Some f =>
          [error_call f ("Websocket failed: " ++ Msg.msg e ++ " ("
                           ++ number_to_string (Msg.code e) ++ ")")%string]
      | None => []
      end
  | None =>
      if key_in (Msg.key m) (keys v)
      then map (fun f => callback_call f (Msg.data m))
               (get (Msg.key m) (keys v))
      else []
  end.

(** [ev.data]: a string or a blob (given by its text). *)
Inductive EventData : Type :=
| Text (s : string)
| Blob (b : string).

Section Host.

(** [JSON.parse]: [None] when it throws. *)
Variable JSON_parse : string -> option MessageStruct.

(** [_sockMessage(sock, ev)] *)
Definition _sockMessage (v : Veins) (sock : nat) (d : EventData)
  : Completion (Veins * list Effect) :=
  match d with
  | Text s =>
      if String.eqb s "authorized" then Normal (set_close false v, [])
      else if String.eqb s "pong" then Normal (v, [])
      else match JSON_parse s with
           | Some m => Normal (v, handleMsg v m)
           | None => Throw SyntaxError
           end
  | Blob b => Normal (v, [readAsText b])
  end.

(** The [loadend] listener of the reader [_sockMessage] starts. *)
Definition _sockMessage_loadend (v : Veins) (result : string)
  : Completion (Veins * list Effect) :=
  match JSON_parse result with
  | Some m => Normal (v, handleMsg v m)
  | None => Throw SyntaxError
  end.

End Host.

(** [_sockOpen(auth, sock)] *)
Definition _sockOpen (token : string) (sock : nat) (v : Veins)
  : list Effect :=
  [send sock (JArr (connect_msg token
                      :: map track_msg (Object_keys (keys v))))].

(** [subscribe(key, callback)]; the handle it returns calls
    [unsubscribe(key, callback)]. *)
Definition subscribe (readyState : nat -> Z) (key : string)
    (callback : messageCallback) (v : Veins) : Veins * list Effect :=
  let v1 :=
    if negb (key_in key (keys v))
    then set_keys (obj_set key [callback] (keys v)) v
    else set_keys (obj_set key (get key (keys v) ++ [callback]) (keys v)) v in
  match socket v1 with
  | SNull => (set_socket SFalse v1, _open (set_socket SFalse v1))
  | SFalse => (v1, [])
  | SObj id =>
      if (readyState id =? 1)%Z then (v1, [send id (track_msg key)])
      else (v1, [])
  end.

(** [unsubscribe(key, callback)] *)
Definition unsubscribe (readyState : nat -> Z) (key : string)
    (callback : messageCallback) (v : Veins) : Veins * list Effect * bool :=
  if key_in key (keys v) then
    match indexOf callback (get key (keys v)) with
    | Some i =>
        let l := splice1 i (get key (keys v)) in
        let v1 := set_keys (obj_set key l (keys v)) v in
        if Nat.eqb (length l) 0 then
          let e1 := match socket v1 with
                    | SObj id =>
                        if (readyState id =? 1)%Z
                        then [send id (untrack_msg key)] else []
                    | _ => []
                    end in
          let v2 := set_keys (obj_delete key (keys v1)) v1 in
          if empty (keys v2) then
            let e2 := if negb (ping v2 =? 0)%Z
                      then [clearInterval (ping v2)] else [] in
            let v3 := if negb (ping v2 =? 0)%Z then set_ping 0 v2 else v2 in
            let v4 := set_close true v3 in
            let e3 := match socket v4 with
                      | SObj id =>
                          [socket_close id 1000 "nothing else to track"]
                      | _ => []
                      end in
            (v4, e1 ++ e2 ++ e3, true)
          else (v2, e1, true)
        else (v1, [], true)
    | None => (v, [], false)
    end
  else (v, [], false).

(** ** The host: sockets, timers, promises *)

(** A socket made by [WSHelper]: its [readyState] (0 connecting, 1 open,
    2 closing, 3 closed) and the hooks installed on it. *)
Record Sock : Type :=
  { readyState : Z; sock_conf : ConfStruct; sock_debug : bool }.

Record World : Type :=
  { veins : Veins;
    in_window : bool;          (* 'WebSocket' in window *)
    socks : list Sock;         (* socket [id] is the element at [id] *)
    intervals : list Z;        (* ids of the running intervals *)
    next_timer : Z;            (* the id the next timer gets *)
    timeouts : nat;            (* pending timeouts, each runs [_open] *)
    promises : nat;            (* pending [auth()] promises *)
    readers : list string;     (* blobs being read *)
    log : list Effect }.

Definition set_veins (v : Veins) (w : World) : World :=
  {| veins := v; in_window := in_window w; socks := socks w;
     intervals := intervals w; next_timer := next_timer w;
     timeouts := timeouts w; promises := promises w; readers := readers w;
     log := log w |}.

Definition set_socks (l : list Sock) (w : World) : World :=
  {| veins := veins w; in_window := in_window w; socks := l;
     intervals := intervals w; next_timer := next_timer w;
     timeouts := timeouts w; promises := promises w; readers := readers w;
     log := log w |}.

Definition set_timers (l : list Z) (n : Z) (t : nat) (w : World) : World :=
  {| veins := veins w; in_window := in_window w; socks := socks w;
     intervals := l; next_timer := n; timeouts := t;
     promises := promises w; readers := readers w; log := log w |}.

Definition set_promises (p : nat) (w : World) : World :=
  {| veins := veins w; in_window := in_window w; socks := socks w;
     intervals := intervals w; next_timer := next_timer w;
     timeouts := timeouts w; promises := p; readers := readers w;
     log := log w |}.

Definition set_readers (l : list string) (w : World) : World :=
  {| veins := veins w; in_window := in_window w; socks := socks w;
     intervals := intervals w; next_timer := next_timer w;
     timeouts := timeouts w; promises := promises w; readers := l;
     log := log w |}.

Definition add_log (e : Effect) (w : World) : World :=
  {| veins := veins w; in_window := in_window w; socks := socks w;
     intervals := intervals w; next_timer := next_timer w;
     timeouts := timeouts w; promises := promises w; readers := readers w;
     log := log w ++ [e] |}.

Definition set_log (l : list Effect) (w : World) : World :=
  {| veins := veins w; in_window := in_window w; socks := socks w;
     intervals := intervals w; next_timer := next_timer w;
     timeouts := timeouts w; promises := promises w; readers := readers w;
     log := l |}.

(** [sock.readyState]; an id that names no socket reads as closed. *)
Definition readyState_of (l : list Sock) (id : nat) : Z :=
  match nth_error l id with
  | Some s => readyState s
  | None => 3
  end.

Fixpoint set_readyState (id : nat) (z : Z) (l : list Sock) : list Sock :=
  match l, id with
  | [], _ => []
  | s :: r, O =>
      {| readyState := z; sock_conf := sock_conf s;
         sock_debug := sock_debug s |} :: r
  | s :: r, S n => s :: set_readyState n z r
  end.

Fixpoint remove_first (b : string) (l : list string) : list string :=
  match l with
  | [] => []
  | x :: r => if String.eqb x b then r else x :: remove_first b r
  end.

(** What the host does when the manager makes a call. *)
Definition host (e : Effect) (w : World) : World :=
  add_log e
    match e with
    | auth_call _ => set_promises (S (promises w)) w
    | new_WebSocket _ _ conf debug =>
        set_socks (socks w ++ [{| readyState := 0; sock_conf := conf;
                                  sock_debug := debug |}]) w
    | socket_close id _ _ =>
        if (readyState_of (socks w) id <? 2)%Z
        then set_socks (set_readyState id 2 (socks w)) w
        else w
    | setInterval id _ =>
        set_timers (id :: intervals w) (next_timer w + 1) (timeouts w) w
    | clearInterval id =>
        set_timers (filter (fun i => negb (i =? id)%Z) (intervals w))
                   (next_timer w) (timeouts w) w
    | setTimeout _ =>
        set_timers (intervals w) (next_timer w + 1) (S (timeouts w)) w
    | readAsText b => set_readers (readers w ++ [b]) w
    | _ => w
    end.

Definition perform (es : list Effect) (w : World) : World :=
  fold_left (fun w e => host e w) es w.

(** The handler has run: its fields are stored, its calls performed; an
    exception it lets out reaches the host. *)
Definition finish (w : World) (r : Completion (Veins * list Effect))
  : World :=
  match r with
  | Normal (v, es) => perform es (set_veins v w)
  | Throw e => perform [uncaught e] w
  end.

Inductive Event : Type :=
| Call_subscribe (key : string) (callback : messageCallback)
| Call_unsubscribe (key : string) (callback : messageCallback)
| Auth_resolve (token : string)
| Auth_reject
| Sock_open (id : nat)
| Sock_message (id : nat) (d : EventData)
| Sock_error (id : nat)
| Sock_close (id : nat)
| Reader_loadend (result : string)
| Interval_tick (id : Z)
| Timeout_fire.

Section Run.

Variable JSON_parse : string -> option MessageStruct.

(** An [on...] property of socket [id] receives an event. *)
Definition hook_open (s : Sock) (id : nat) (v : Veins)
  : option (Completion (Veins * list Effect)) :=
  match WSHelper_hook (conf_open (sock_conf s)) (sock_debug s) with
  | Invoke (bound_sockOpen token) => Some (Normal (v, _sockOpen token id v))
  | Invoke _ => None
  | LogEvent => Some (Normal (v, [console_log "websocket opened:"]))
  | Ignore => Some (Normal (v, []))
  end.

Definition hook_message (s : Sock) (id : nat) (d : EventData) (v : Veins)
  : option (Completion (Veins * list Effect)) :=
  match WSHelper_hook (conf_message (sock_conf s)) (sock_debug s) with
  | Invoke bound_sockMessage => Some (_sockMessage JSON_parse v id d)
  | Invoke _ => None
  | LogEvent => Some (Normal (v, [console_log "websocket message:"]))
  | Ignore => Some (Normal (v, []))
  end.

Definition hook_error (s : Sock) (v : Veins)
  : option (Completion (Veins * list Effect)) :=
  match WSHelper_hook (conf_error (sock_conf s)) (sock_debug s) with
  | Invoke _ => None
  | LogEvent => Some (Normal (v, [console_log "websocket error:"]))
  | Ignore => Some (Normal (v, []))
  end.

Definition hook_close (s : Sock) (v : Veins)
  : option (Completion (Veins * list Effect)) :=
  match WSHelper_hook (conf_close (sock_conf s)) (sock_debug s) with
  | Invoke bound_sockClose => Some (Normal (_sockClose v))
  | Invoke _ => None
  | LogEvent => Some (Normal (v, [console_log "websocket closed:"]))
  | Ignore => Some (Normal (v, []))
  end.

(** One event; [None] when the host cannot raise it in this world. *)
Definition step (ev : Event) (w : World) : option World :=
  match ev with
  | Call_subscribe key callback =>
      Some (finish w (Normal (subscribe (readyState_of (socks w)) key
                                        callback (veins w))))
  | Call_unsubscribe key callback =>
      Some (finish w (Normal (fst (unsubscribe (readyState_of (socks w))
                                               key callback (veins w)))))
  | Auth_resolve token =>
      match promises w with
      | O => None
      | S p =>
          let w1 := set_promises p w in
          Some (finish w1 (Normal (_open_then (in_window w)
                                     (length (socks w)) (next_timer w)
                                     token (veins w))))
      end
  | Auth_reject =>
      match promises w with
      | O => None
      | S p => Some (set_promises p w)
      end
  | Sock_open id =>
      match nth_error (socks w) id with
      | Some s =>
          if (readyState s =? 0)%Z
          then option_map
                 (finish (set_socks (set_readyState id 1 (socks w)) w))
                 (hook_open s id (veins w))
          else None
      | None => None
      end
  | Sock_message id d =>
      match nth_error (socks w) id with
      | Some s =>
          if (readyState s =? 1)%Z
          then option_map (finish w) (hook_message s id d (veins w))
          else None
      | None => None
      end
  | Sock_error id =>
      match nth_error (socks w) id with
      | Some s =>
          if (readyState s =? 3)%Z then None
          else option_map (finish w) (hook_error s (veins w))
      | None => None
      end
  | Sock_close id =>
      match nth_error (socks w) id with
      | Some s =>
          if (readyState s =? 3)%Z then None
          else option_map
                 (finish (set_socks (set_readyState id 3 (socks w)) w))
                 (hook_close s (veins w))
      | None => None
      end
  | Reader_loadend result =>
      if existsb (String.eqb result) (readers w)
      then Some (finish (set_readers (remove_first result (readers w)) w)
                        (_sockMessage_loadend JSON_parse (veins w) result))
      else None
  | Interval_tick id =>
      if existsb (Z.eqb id) (intervals w)
      then Some (finish w (Normal (veins w, ping_tick (veins w))))
      else None
  | Timeout_fire =>
      match timeouts w with
      | O => None
      | S t =>
          Some (finish (set_timers (intervals w) (next_timer w) t w)
                       (Normal (veins w, _open (veins w))))
      end
  end.

Fixpoint run (evs : list Event) (w : World) : option World :=
  match evs with
  | [] => Some w
  | ev :: r =>
      match step ev w with
      | Some w' => run r w'
      | None => None
      end
  end.

End Run.

(** The world right after [new Veins(url, auth, error)]. *)
Definition boot (supported : bool) (v : Veins) : World :=
  {| veins := v; in_window := supported; socks := []; intervals := [];
     next_timer := 1; timeouts := 0; promises := 0; readers := [];
     log := [] |}.

(** ** Notions of the specification *)

(** The spec's state [Open]: the transport is open and the server has
    answered [authorized], which is when the source clears [close]. *)
Definition is_Open (w : World) : bool :=
  match socket (veins w) with
  | SObj id => (readyState_of (socks w) id =? 1)%Z && negb (close (veins w))
  | _ => false
  end.





(** Sockets whose close event is still to come. *)
Definition alive (l : list Sock) : nat :=
  length (filter (fun s => negb (readyState s =? 3)%Z) l).

(** A run without its error reports, by a manager without error sink. *)
Definition is_error_call (e : Effect) : bool :=
  match e with error_call _ _ => true | _ => false end.

Definition mute_effects (es : list Effect) : list Effect :=
  filter (fun e => negb (is_error_call e)) es.

Definition mute (w : World) : World :=
  {| veins := set_error None (veins w); in_window := in_window w;
     socks := socks w; intervals := intervals w;
     next_timer := next_timer w; timeouts := timeouts w;
     promises := promises w; readers := readers w;
     log := mute_effects (log w) |}.


(** Calls that change nothing on the host's side but its log. *)
Definition inert (e : Effect) : bool :=
  match e with
  | send _ _ | error_call _ _ | callback_call _ _
  | console_error _ | console_log _ | uncaught _ => true
  | _ => false
  end.

(** The timers: ids are positive and fresh, and the only interval that can
    be running is the one whose id [ping] holds. *)
Definition timers_ok (w : World) : Prop :=
  (0 < next_timer w)%Z
  /\ (ping (veins w) < next_timer w)%Z
  /\ (intervals w = []
      \/ (ping (veins w) <> 0%Z /\ intervals w = [ping (veins w)])).

(** Connection attempts: a live socket, a pending token and a pending
    reconnect exclude each other, and none exists while [socket] is
    [null]. *)
Definition attempts_ok (w : World) : Prop :=
  (alive (socks w) + promises w + timeouts w <= 1)%nat
  /\ (socket (veins w) = SNull ->
      alive (socks w) = 0%nat /\ promises w = 0%nat /\ timeouts w = 0%nat).

(** Every socket carries the hooks of [_open]. *)
Definition hooks_ok (w : World) : Prop :=
  Forall (fun s => exists token, sock_conf s = _open_conf token) (socks w).

(** What holds of every world a manager can reach. *)
Definition world_ok (w : World) : Prop :=
  timers_ok w /\ attempts_ok w /\ hooks_ok w
  /\ NoDup (map fst (keys (veins w))).

(** The result of a handler, as a manager without error callback gives
    it. *)
Definition mute_result (r : Veins * list Effect) : Veins * list Effect :=
  (set_error None (fst r), mute_effects (snd r)).

Definition mute_completion (r : Completion (Veins * list Effect))
  : Completion (Veins * list Effect) :=
  match r with
  | Normal p => Normal (mute_result p)
  | Throw e => Throw e
  end.

(** ** Sample worlds *)


(** After the connection for "k" is made and authorized. *)
Definition sample_open : World :=
  Eval vm_compute in
    match run (fun _ => None)
              [Call_subscribe "k" 1; Auth_resolve "t"; Sock_open 0;
               Sock_message 0 (Text "authorized")]
              (boot true (constructor "wss://h" 0 (Some 9%nat))) with
    | Some w => w
    | None => boot true (constructor "wss://h" 0 (Some 9%nat))
    end.

(** ** Further notions *)

(** A socket whose close event is still to come is the one [socket]
    holds. *)
Definition current_ok (w : World) : Prop :=
  forall id, readyState_of (socks w) id <> 3%Z -> socket (veins w) = SObj id.

(** No socket was made with [debug] set. *)
Definition quiet_ok (w : World) : Prop :=
  Forall (fun s => sock_debug s = false) (socks w).


(** The key of a control frame [{_type: tag, key: k}]. *)
Definition frame_key (tag : string) (j : JSON) : option string :=
  match j with
  | JObj [(n1, JStr t); (n2, JStr k)] =>
      if String.eqb n1 "_type" && String.eqb n2 "key" && String.eqb t tag
      then Some k else None
  | _ => None
  end.

(** What the frames sent on socket [id] ask for, read in order: the array
    sent when the socket opens names the keys to track, a [track] frame
    adds its key, an [untrack] frame removes it. *)
Definition tracked_step (id : nat) (view : list string) (e : Effect)
  : list string :=
  match e with
  | send sock payload =>
      if Nat.eqb sock id then
        match payload with
        | JArr items =>
            flat_map (fun j => match frame_key "track" j with
                               | Some k => [k]
                               | None => []
                               end) items
        | _ =>
            match frame_key "track" payload with
            | Some k => k :: view
            | None =>
                match frame_key "untrack" payload with
                | Some k => filter (fun x => negb (String.eqb x k)) view
                | None => view
                end
            end
        end
      else view
  | _ => view
  end.

Definition tracked (id : nat) (l : list Effect) : list string :=
  fold_left (tracked_step id) l [].

(** While the socket [socket] holds is open, the frames sent on it ask for
    exactly the keys of [keys]. *)
Definition synced (w : World) : Prop :=
  forall id,
    socket (veins w) = SObj id ->
    readyState_of (socks w) id = 1%Z ->
    forall k, In k (tracked id (log w)) <-> key_in k (keys (veins w)) = true.


(** More sample worlds. *)

(** The socket for "k" is open, the server has not answered yet. *)
Definition sample_handshake : World :=
  Eval vm_compute in
    match run (fun _ => None)
              [Call_subscribe "k" 1; Auth_resolve "t"; Sock_open 0]
              (boot true (constructor "wss://h" 0 (Some 9%nat))) with
    | Some w => w
    | None => boot true (constructor "wss://h" 0 (Some 9%nat))
    end.

(** That socket was closed before the server answered. *)
Definition sample_refused : World :=
  Eval vm_compute in
    match step (fun _ => None) (Sock_close 0) sample_handshake with
    | Some w => w
    | None => sample_handshake
    end.


(** Two callbacks on "k", one on "j". *)
Definition sample_veins : Veins :=
  {| auth := 0; close := false; error := Some 9%nat;
     keys := [("k", [1%nat; 2%nat]); ("j", [3%nat])];
     ping := 1; socket := SObj 0; url := "wss://h" |}.

(** * Properties *)

(** ** The object [this.keys] *)

Lemma get_obj_set_same (k : string) (l : list messageCallback) (o : Keys) :
  get k (obj_set k l o) = l.
Proof.
  induction o as [|[k' l'] r IH]; simpl.
  - now rewrite String.eqb_refl.
  - destruct (String.eqb k' k) eqn:E; simpl; rewrite E; auto.
Qed.

Lemma get_obj_set_other (k k' : string) (l : list messageCallback)
    (o : Keys) :
  k <> k' -> get k' (obj_set k l o) = get k' o.
Proof.
  intros Hne. induction o as [|[k0 l0] r IH]; simpl.
  - destruct (String.eqb_spec k k'); [contradiction | reflexivity].
  - destruct (String.eqb_spec k0 k) as [->|Hk]; simpl.
    + destruct (String.eqb_spec k k'); [contradiction | reflexivity].
    + destruct (String.eqb k0 k'); auto.
Qed.

Lemma get_obj_delete_same (k : string) (o : Keys) :
  get k (obj_delete k o) = [].
Proof.
  induction o as [|[k' l'] r IH]; simpl; auto.
  destruct (String.eqb k' k) eqn:E; simpl; auto. now rewrite E.
Qed.

Lemma get_obj_delete_other (k k' : string) (o : Keys) :
  k <> k' -> get k' (obj_delete k o) = get k' o.
Proof.
  intros Hne. induction o as [|[k0 l0] r IH]; simpl; auto.
  destruct (String.eqb_spec k0 k) as [->|Hk]; simpl.
  - destruct (String.eqb_spec k k'); [contradiction | auto].
  - destruct (String.eqb k0 k'); auto.
Qed.

Lemma key_in_false_get (k : string) (o : Keys) :
  key_in k o = false -> get k o = [].
Proof.
  induction o as [|[k' l'] r IH]; simpl; auto.
  destruct (String.eqb k' k); simpl; [discriminate | auto].
Qed.

Lemma key_in_iff_map (k : string) (o : Keys) :
  key_in k o = true <-> In k (map fst o).
Proof.
  unfold key_in. rewrite existsb_exists, in_map_iff. split.
  - intros [p [Hp E]]. apply String.eqb_eq in E. eauto.
  - intros [p [E Hp]]. exists p. split; auto. now apply String.eqb_eq.
Qed.

Lemma map_fst_obj_set_in (k : string) (l : list messageCallback) (o : Keys) :
  key_in k o = true -> map fst (obj_set k l o) = map fst o.
Proof.
  induction o as [|[k' l'] r IH]; simpl; [discriminate|].
  destruct (String.eqb_spec k' k); simpl; intros H; [reflexivity|].
  now rewrite IH.
Qed.

Lemma map_fst_obj_set_new (k : string) (l : list messageCallback) (o : Keys) :
  key_in k o = false -> map fst (obj_set k l o) = map fst o ++ [k].
Proof.
  induction o as [|[k' l'] r IH]; simpl; [reflexivity|].
  destruct (String.eqb_spec k' k); simpl; intros H; [discriminate|].
  now rewrite IH.
Qed.

Lemma map_fst_obj_delete (k : string) (o : Keys) :
  map fst (obj_delete k o)
  = filter (fun k' => negb (String.eqb k' k)) (map fst o).
Proof.
  induction o as [|[k' l'] r IH]; simpl; auto.
  destruct (String.eqb k' k); simpl; now rewrite IH.
Qed.




(** ** [Object.keys] lists every own key once *)

Lemma insert_index_perm (p : N * string) (l : list (N * string)) :
  Permutation (insert_index p l) (p :: l).
Proof.
  induction l as [|q r IH]; simpl; auto.
  destruct (fst p <=? fst q)%N; auto.
  rewrite IH. apply perm_swap.
Qed.

Lemma sort_index_perm (l : list (N * string)) :
  Permutation (sort_index l) l.
Proof.
  induction l as [|p r IH]; simpl; auto.
  rewrite insert_index_perm. now constructor.
Qed.

Lemma Object_keys_perm (o : Keys) :
  Permutation (Object_keys o) (map fst o).
Proof.
  unfold Object_keys. rewrite sort_index_perm.
  induction (map fst o) as [|k ks IH]; simpl; auto.
  unfold index_keys, name_keys in *. simpl.
  destruct (array_index k); simpl.
  - now constructor.
  - rewrite <- Permutation_middle. now constructor.
Qed.

(** ** subscribe on a key that is already tracked *)

(** C2, as the code behaves: on a key that already has a callback and
    with the socket's [readyState] equal to 1, [subscribe] appends the
    callback at the end of the key's list and sends one more [track] frame
    for the key; the frame goes out on every such call. *)
Theorem subscribe_tracked_key_sends_track
    (rs : nat -> Z) (key : string) (callback : messageCallback)
    (v : Veins) (id : nat) :
  key_in key (keys v) = true ->
  socket v = SObj id ->
  rs id = 1%Z ->
  subscribe rs key callback v
  = (set_keys (obj_set key (get key (keys v) ++ [callback]) (keys v)) v,
     [send id (track_msg key)])
  /\ get key (keys (fst (subscribe rs key callback v)))
     = get key (keys v) ++ [callback].
Proof.
  intros Hin Hs Hr. unfold subscribe. rewrite Hin. simpl.
  rewrite Hs, Hr. simpl. split; [reflexivity|].
  apply get_obj_set_same.
Qed.

Lemma subscribe_tracked_key_sends_track_witness :
  subscribe (fun _ => 1%Z) "k" 2
    {| auth := 0; close := false; error := None; keys := [("k", [1%nat])];
       ping := 1; socket := SObj 0; url := "wss://h" |}
  = ({| auth := 0; close := false; error := None;
        keys := [("k", [1%nat; 2%nat])];
        ping := 1; socket := SObj 0; url := "wss://h" |},
     [send 0 (track_msg "k")])
  /\ get "k" (keys (fst (subscribe (fun _ => 1%Z) "k" 2
       {| auth := 0; close := false; error := None;
          keys := [("k", [1%nat])];
          ping := 1; socket := SObj 0; url := "wss://h" |})))
     = [1%nat; 2%nat].
Proof.
  apply (subscribe_tracked_key_sends_track (fun _ => 1%Z) "k" 2
           {| auth := 0; close := false; error := None;
              keys := [("k", [1%nat])];
              ping := 1; socket := SObj 0; url := "wss://h" |} 0);
    reflexivity.
Defined.

(** C2 fails as stated: a manager subscribes a first callback to "k",
    connects, is authorized, and subscribes a second callback to "k"; the
    log then holds the batch with [track "k"] and a second, separate
    [track "k"] frame. *)
Lemma subscribe_twice_sends_two_tracks :
  option_map is_Open
    (run (fun _ => None)
         [Call_subscribe "k" 1; Auth_resolve "t"; Sock_open 0;
          Sock_message 0 (Text "authorized")]
         (boot true (constructor "wss://h" 0 None)))
  = Some true
  /\ option_map log
       (run (fun _ => None)
            [Call_subscribe "k" 1; Auth_resolve "t"; Sock_open 0;
             Sock_message 0 (Text "authorized"); Call_subscribe "k" 2]
            (boot true (constructor "wss://h" 0 None)))
     = Some [auth_call 0;
             new_WebSocket 0 "wss://h" (_open_conf "t") false;
             setInterval 1 300000;
             send 0 (JArr [connect_msg "t"; track_msg "k"]);
             send 0 (track_msg "k")].
Proof. split; reflexivity. Qed.

(** ** Dispatch of a structured message *)





(** ** Removing the last callback of the last key *)


(** ** A text frame that is not JSON *)

(** C9, as the code behaves: for a text frame that is neither
    "authorized" nor "pong" and that [JSON.parse] rejects, [_sockMessage]
    lets the [SyntaxError] out to the host; the fields of the manager are
    as before, and the host's log gains the uncaught exception and no
    call of the error callback. *)
Theorem sockMessage_malformed_throws
    (JSON_parse : string -> option MessageStruct)
    (w : World) (sock : nat) (s : string) :
  JSON_parse s = None ->
  s <> "authorized" ->
  s <> "pong" ->
  _sockMessage JSON_parse (veins w) sock (Text s) = Throw SyntaxError
  /\ finish w (_sockMessage JSON_parse (veins w) sock (Text s))
     = add_log (uncaught SyntaxError) w.
Proof.
  intros Hp Ha Hg. unfold _sockMessage.
  destruct (String.eqb_spec s "authorized"); [contradiction|].
  destruct (String.eqb_spec s "pong"); [contradiction|].
  rewrite Hp. split; reflexivity.
Qed.

Lemma sockMessage_malformed_throws_witness :
  _sockMessage (fun _ => None)
    (veins (boot true (constructor "wss://h" 0 (Some 9%nat)))) 0 (Text "{")
  = Throw SyntaxError
  /\ finish (boot true (constructor "wss://h" 0 (Some 9%nat)))
       (_sockMessage (fun _ => None)
          (veins (boot true (constructor "wss://h" 0 (Some 9%nat)))) 0
          (Text "{"))
     = add_log (uncaught SyntaxError)
               (boot true (constructor "wss://h" 0 (Some 9%nat))).
Proof.
  apply (sockMessage_malformed_throws (fun _ => None)
           (boot true (constructor "wss://h" 0 (Some 9%nat))) 0 "{");
    [reflexivity | discriminate | discriminate].
Defined.

(** C9 fails as stated: with a [JSON.parse] that rejects the text "{", a
    connected manager with an error callback receives the frame "{"; the
    handler throws, and the log ends with the uncaught [SyntaxError]
    without any call of the error callback. *)
Lemma sockMessage_malformed_escapes :
  exists JSON_parse : string -> option MessageStruct,
    JSON_parse "{" = None
    /\ _sockMessage JSON_parse (constructor "wss://h" 0 (Some 9%nat)) 0
         (Text "{")
       = Throw SyntaxError
    /\ option_map log
         (run JSON_parse
              [Call_subscribe "k" 1; Auth_resolve "t"; Sock_open 0;
               Sock_message 0 (Text "authorized"); Sock_message 0 (Text "{")]
              (boot true (constructor "wss://h" 0 (Some 9%nat))))
       = Some [auth_call 0;
               new_WebSocket 0 "wss://h" (_open_conf "t") false;
               setInterval 1 300000;
               send 0 (JArr [connect_msg "t"; track_msg "k"]);
               uncaught SyntaxError].
Proof.
  exists (fun _ => None). repeat split; reflexivity.
Qed.

(** ** The host never touches the manager's fields *)

Lemma veins_host (e : Effect) (w : World) : veins (host e w) = veins w.
Proof.
  destruct e; simpl; try reflexivity.
  destruct (readyState_of (socks w) sock <? 2)%Z; reflexivity.
Qed.

Lemma veins_perform (es : list Effect) (w : World) :
  veins (perform es w) = veins w.
Proof.
  revert w. induction es as [|e es IH]; intros w; simpl; auto.
  unfold perform in IH. now rewrite IH, veins_host.
Qed.

Lemma log_host (e : Effect) (w : World) : log (host e w) = log w ++ [e].
Proof.
  destruct e; simpl; try reflexivity.
  destruct (readyState_of (socks w) sock <? 2)%Z; reflexivity.
Qed.

Lemma log_perform (es : list Effect) (w : World) :
  log (perform es w) = log w ++ es.
Proof.
  revert w. induction es as [|e es IH]; intros w; simpl.
  - now rewrite app_nil_r.
  - unfold perform in IH. rewrite IH, log_host, <- app_assoc. reflexivity.
Qed.

Lemma veins_finish (w : World) (v : Veins) (es : list Effect) :
  veins (finish w (Normal (v, es))) = v.
Proof. simpl. now rewrite veins_perform. Qed.

(** The keys after [subscribe] and [unsubscribe]. *)
Lemma keys_subscribe (rs : nat -> Z) (k : string) (c : messageCallback)
    (v : Veins) :
  keys (fst (subscribe rs k c v))
  = obj_set k (get k (keys v) ++ [c]) (keys v).
Proof.
  unfold subscribe.
  destruct (key_in k (keys v)) eqn:Hin; simpl;
    destruct (socket v); simpl; try destruct (rs id =? 1)%Z; simpl;
    try rewrite (key_in_false_get _ _ Hin); reflexivity.
Qed.

Lemma keys_unsubscribe (rs : nat -> Z) (k : string) (c : messageCallback)
    (v : Veins) :
  keys (fst (fst (unsubscribe rs k c v)))
  = match indexOf c (get k (keys v)) with
    | Some i =>
        match splice1 i (get k (keys v)) with
        | [] => obj_delete k (obj_set k [] (keys v))
        | l => obj_set k l (keys v)
        end
    | None => keys v
    end.
Proof.
  unfold unsubscribe.
  destruct (key_in k (keys v)) eqn:Hin.
  - destruct (indexOf c (get k (keys v))) as [i|]; [|reflexivity].
    destruct (splice1 i (get k (keys v))) as [|x l]; simpl.
    + destruct (empty (obj_delete k (obj_set k [] (keys v)))); simpl;
        [destruct (negb (ping v =? 0)%Z)|]; reflexivity.
    + reflexivity.
  - rewrite (key_in_false_get _ _ Hin). reflexivity.
Qed.

Ltac veins_done :=
  simpl; rewrite ?veins_perform, ?veins_host; simpl; reflexivity.

Section Steps.

Variable JSON_parse : string -> option MessageStruct.

(** Only [subscribe] and [unsubscribe] change the keys. *)
Lemma step_keys (ev : Event) (w w' : World) :
  step JSON_parse ev w = Some w' ->
  keys (veins w')
  = match ev with
    | Call_subscribe k c =>
        keys (fst (subscribe (readyState_of (socks w)) k c (veins w)))
    | Call_unsubscribe k c =>
        keys (fst (fst (unsubscribe (readyState_of (socks w)) k c
                                    (veins w))))
    | _ => keys (veins w)
    end.
Proof.
  destruct ev; unfold step; intros H.
  - injection H as <-.
    destruct (subscribe _ _ _ _) as [v es]. veins_done.
  - injection H as <-.
    destruct (unsubscribe _ _ _ _) as [[v es] b]. simpl fst.
    veins_done.
  - destruct (promises w); [discriminate|]. injection H as <-.
    destruct (_open_then _ _ _ _ _) as [v es] eqn:E.
    simpl. rewrite veins_perform.
    unfold _open_then, WSHelper in E.
    destruct (negb (in_window w)); simpl in E;
      [|destruct (ping (veins w) =? 0)%Z];
      inversion E; subst; veins_done.
  - destruct (promises w); [discriminate|]. injection H as <-.
    reflexivity.
  - destruct (nth_error (socks w) id) as [s|]; [|discriminate].
    destruct (readyState s =? 0)%Z; [|discriminate].
    unfold hook_open in H.
    destruct (WSHelper_hook _ _) as [[t| |]| |]; simpl in H;
      try discriminate; injection H as <-;
      veins_done.
  - destruct (nth_error (socks w) id) as [s|]; [|discriminate].
    destruct (readyState s =? 1)%Z; [|discriminate].
    unfold hook_message, _sockMessage in H.
    destruct (WSHelper_hook _ _) as [[t| |]| |]; simpl in H;
      try discriminate.
    + destruct d as [t|b]; simpl in H.
      * destruct (String.eqb t "authorized");
          [|destruct (String.eqb t "pong");
            [|destruct (JSON_parse t)]];
          injection H as <-; veins_done.
      * injection H as <-; veins_done.
    + injection H as <-; veins_done.
    + injection H as <-; veins_done.
  - destruct (nth_error (socks w) id) as [s|]; [|discriminate].
    destruct (readyState s =? 3)%Z; [discriminate|].
    unfold hook_error in H.
    destruct (WSHelper_hook _ _) as [h| |]; simpl in H;
      try discriminate; injection H as <-; veins_done.
  - destruct (nth_error (socks w) id) as [s|]; [|discriminate].
    destruct (readyState s =? 3)%Z; [discriminate|].
    unfold hook_close, _sockClose in H.
    destruct (WSHelper_hook _ _) as [[t| |]| |]; simpl in H;
      try discriminate.
    + destruct (close (veins w)); injection H as <-; veins_done.
    + injection H as <-; veins_done.
    + injection H as <-; veins_done.
  - destruct (existsb _ _); [|discriminate].
    unfold _sockMessage_loadend in H.
    destruct (JSON_parse result); injection H as <-; simpl;
      now rewrite ?veins_perform.
  - destruct (existsb _ _); [|discriminate].
    injection H as <-; simpl. veins_done.
  - destruct (timeouts w); [discriminate|].
    injection H as <-; veins_done.
Qed.

End Steps.

(** ** The registry holds exactly the live callbacks *)

Lemma indexOf_length (c : messageCallback) (l : list messageCallback)
    (i : nat) :
  indexOf c l = Some i -> (i < length l)%nat.
Proof.
  revert i. induction l as [|f r IH]; simpl; intros i H; [discriminate|].
  destruct (Nat.eqb c f).
  - injection H as <-. lia.
  - destruct (indexOf c r) as [j|]; [|discriminate].
    injection H as <-. specialize (IH j eq_refl). lia.
Qed.






Section Registry.

Variable JSON_parse : string -> option MessageStruct.




End Registry.


(** ** Invariants of the host's side *)

(** Case analysis on the innermost test of the goal. *)
Ltac split_test :=
  match goal with
  | |- context [match ?x with _ => _ end] =>
      lazymatch x with
      | context [match _ with _ => _ end] => fail
      | _ => destruct x eqn:?
      end
  end.

Ltac split_tests := repeat (split_test; simpl).

Ltac Z_tests :=
  repeat match goal with
    | H : (_ =? _)%Z = true |- _ => apply Z.eqb_eq in H
    | H : (_ =? _)%Z = false |- _ => apply Z.eqb_neq in H
    | H : (_ <? _)%Z = true |- _ => apply Z.ltb_lt in H
    | H : (_ <? _)%Z = false |- _ => apply Z.ltb_ge in H
    end.

Lemma perform_inert (es : list Effect) (w : World) :
  forallb inert es = true -> perform es w = set_log (log w ++ es) w.
Proof.
  revert w. induction es as [|e es IH]; simpl; intros w H.
  - rewrite app_nil_r. now destruct w.
  - apply andb_prop in H. destruct H as [He Hes].
    unfold perform in IH. rewrite IH by assumption.
    destruct e; try discriminate; unfold set_log; simpl;
      now rewrite <- app_assoc.
Qed.

Lemma handleMsg_inert (v : Veins) (m : MessageStruct) :
  forallb inert (handleMsg v m) = true.
Proof.
  unfold handleMsg. destruct (Msg.error m).
  - now destruct (error v).
  - destruct (key_in _ _); auto.
    induction (get _ _); simpl; auto.
Qed.

(** The cases of one step: [H] is [step _ ev w = Some w']; every case ends
    with the new world in the goal. *)
Ltac step_cases H :=
  lazymatch type of H with
  | step _ ?ev ?w = Some _ =>
      destruct ev; unfold step in H;
      [ injection H as <-; unfold subscribe, _open; simpl
      | injection H as <-; unfold unsubscribe; simpl
      | destruct (promises w) eqn:?; [discriminate|]; injection H as <-;
        unfold _open_then, WSHelper; simpl
      | destruct (promises w) eqn:?; [discriminate|]; injection H as <-
      | destruct (nth_error (socks w) _) as [?s|] eqn:?; [|discriminate];
        destruct (readyState _ =? 0)%Z eqn:?; [|discriminate];
        unfold hook_open in H;
        destruct (WSHelper_hook _ _) as [[?t| |]| |]; simpl in H;
        try discriminate; injection H as <-
      | destruct (nth_error (socks w) _) as [?s|] eqn:?; [|discriminate];
        destruct (readyState _ =? 1)%Z eqn:?; [|discriminate];
        unfold hook_message, _sockMessage in H;
        destruct (WSHelper_hook _ _) as [[?t| |]| |]; simpl in H;
        try discriminate; injection H as <-
      | destruct (nth_error (socks w) _) as [?s|] eqn:?; [|discriminate];
        destruct (readyState _ =? 3)%Z eqn:?; [discriminate|];
        unfold hook_error in H;
        destruct (WSHelper_hook _ _) as [?h| |]; simpl in H;
        try discriminate; injection H as <-
      | destruct (nth_error (socks w) _) as [?s|] eqn:?; [|discriminate];
        destruct (readyState _ =? 3)%Z eqn:?; [discriminate|];
        unfold hook_close, _sockClose in H;
        destruct (WSHelper_hook _ _) as [[?t| |]| |]; simpl in H;
        try discriminate; injection H as <-
      | destruct (existsb _ _); [|discriminate];
        unfold _sockMessage_loadend in H; injection H as <-
      | destruct (existsb _ _); [|discriminate];
        injection H as <-; unfold ping_tick
      | destruct (timeouts w) eqn:?; [discriminate|]; injection H as <- ];
      split_tests; rewrite ?perform_inert by (apply handleMsg_inert)
  end.

Lemma clear_running (p : Z) (l : list Z) :
  l = [] \/ l = [p] -> filter (fun i => negb (i =? p)%Z) l = [].
Proof. intros [->| ->]; simpl; auto. now rewrite Z.eqb_refl. Qed.

Ltac timers_done :=
  unfold timers_ok in *; simpl in *; split_tests; Z_tests;
  repeat match goal with H : _ /\ _ |- _ => destruct H end;
  repeat split; try lia;
  try (left; apply clear_running; intuition congruence);
  try (left; reflexivity);
  try (intuition (congruence || lia)).

Lemma hooks_set_readyState (id : nat) (z : Z) (l : list Sock) :
  Forall (fun s => exists token, sock_conf s = _open_conf token) l ->
  Forall (fun s => exists token, sock_conf s = _open_conf token)
         (set_readyState id z l).
Proof.
  intros H. revert id. induction H as [|s r Hs Hr IH]; intros [|n]; simpl;
    constructor; auto.
Qed.

Ltac hooks_done :=
  unfold hooks_ok in *; simpl in *; split_tests;
  try assumption;
  try (apply hooks_set_readyState; assumption);
  try (apply Forall_app; split; [assumption|];
       constructor; [eexists; reflexivity | constructor]).

Lemma alive_new (l : list Sock) (c : ConfStruct) (d : bool) :
  alive (l ++ [{| readyState := 0; sock_conf := c; sock_debug := d |}])
  = S (alive l).
Proof. unfold alive. rewrite filter_app, length_app. simpl. lia. Qed.

Lemma alive_set_readyState (id : nat) (z : Z) (l : list Sock) (s : Sock) :
  nth_error l id = Some s ->
  (alive (set_readyState id z l)
   + (if (readyState s =? 3)%Z then 0 else 1)
   = alive l + (if (z =? 3)%Z then 0 else 1))%nat.
Proof.
  revert id. induction l as [|x r IH]; intros [|n] H; simpl in *;
    try discriminate.
  - injection H as ->. unfold alive. simpl.
    destruct (z =? 3)%Z, (readyState s =? 3)%Z; simpl; lia.
  - specialize (IH n H). unfold alive in *. simpl.
    destruct (readyState x =? 3)%Z; simpl; lia.
Qed.

Lemma alive_closing (id : nat) (l : list Sock) :
  (readyState_of l id <? 2)%Z = true ->
  alive (set_readyState id 2 l) = alive l.
Proof.
  unfold readyState_of. intros H.
  destruct (nth_error l id) as [s|] eqn:E; [|discriminate].
  pose proof (alive_set_readyState id 2 l s E) as Ha. simpl in Ha.
  apply Z.ltb_lt in H.
  destruct (Z.eqb_spec (readyState s) 3); lia.
Qed.

Ltac attempts_done :=
  unfold attempts_ok in *; simpl in *; split_tests;
  rewrite ?alive_new; rewrite ?alive_closing by assumption;
  repeat match goal with
    | E : nth_error ?l ?id = Some ?s |- context [set_readyState ?id ?z ?l] =>
        let Ha := fresh "Ha" in
        pose proof (alive_set_readyState id z l s E) as Ha; simpl in Ha;
        generalize dependent (alive (set_readyState id z l)); intros
    end;
  repeat match goal with
    | Ha : context [(readyState ?s =? 3)%Z] |- _ =>
        destruct (Z.eqb_spec (readyState s) 3)
    end;
  Z_tests;
  intuition (try discriminate; try congruence; try lia).

Lemma nodup_obj_set (k : string) (l : list messageCallback) (o : Keys) :
  NoDup (map fst o) -> NoDup (map fst (obj_set k l o)).
Proof.
  intros H. destruct (key_in k o) eqn:E.
  - now rewrite map_fst_obj_set_in.
  - rewrite map_fst_obj_set_new by assumption.
    apply NoDup_app; auto.
    + constructor; [intros [] | constructor].
    + intros x Hx [<-|[]]. apply key_in_iff_map in Hx. congruence.
Qed.

Lemma nodup_obj_delete (k : string) (o : Keys) :
  NoDup (map fst o) -> NoDup (map fst (obj_delete k o)).
Proof. intros H. rewrite map_fst_obj_delete. now apply NoDup_filter. Qed.

Section Invariants.

Variable JSON_parse : string -> option MessageStruct.

Lemma timers_ok_step (ev : Event) (w w' : World) :
  step JSON_parse ev w = Some w' -> timers_ok w -> timers_ok w'.
Proof. intros H Hok. step_cases H; solve [timers_done]. Qed.

Lemma hooks_ok_step (ev : Event) (w w' : World) :
  step JSON_parse ev w = Some w' -> hooks_ok w -> hooks_ok w'.
Proof. intros H Hok. step_cases H; solve [hooks_done]. Qed.

Lemma attempts_ok_step (ev : Event) (w w' : World) :
  step JSON_parse ev w = Some w' -> attempts_ok w -> attempts_ok w'.
Proof. intros H Hok. step_cases H; solve [attempts_done]. Qed.

Lemma keys_nodup_step (ev : Event) (w w' : World) :
  step JSON_parse ev w = Some w' ->
  NoDup (map fst (keys (veins w))) ->
  NoDup (map fst (keys (veins w'))).
Proof.
  intros H Hok. rewrite (step_keys JSON_parse ev w w' H).
  destruct ev; auto.
  - rewrite keys_subscribe. now apply nodup_obj_set.
  - rewrite keys_unsubscribe.
    destruct (indexOf _ _); auto.
    destruct (splice1 _ _); auto using nodup_obj_set, nodup_obj_delete.
Qed.

Lemma world_ok_step (ev : Event) (w w' : World) :
  step JSON_parse ev w = Some w' -> world_ok w -> world_ok w'.
Proof.
  intros H (Ht & Ha & Hh & Hk).
  split; [|split; [|split]];
    eauto using timers_ok_step, attempts_ok_step, hooks_ok_step,
      keys_nodup_step.
Qed.

Lemma world_ok_run (evs : list Event) (w w' : World) :
  run JSON_parse evs w = Some w' -> world_ok w -> world_ok w'.
Proof.
  revert w. induction evs as [|ev evs IH]; simpl; intros w Hrun Hok.
  - now injection Hrun as <-.
  - destruct (step JSON_parse ev w) as [w1|] eqn:Hs; [|discriminate].
    eauto using world_ok_step.
Qed.

Lemma world_ok_reach (supported : bool) (u : string) (a : authCallback)
    (e : option errorCallback) (evs : list Event) (w : World) :
  run JSON_parse evs (boot supported (constructor u a e)) = Some w ->
  world_ok w.
Proof.
  intros Hrun. apply (world_ok_run evs _ w Hrun).
  split; [|split; [|split]].
  - repeat split; simpl; try lia. now left.
  - split; simpl; [lia | auto].
  - constructor.
  - constructor.
Qed.

End Invariants.

(** ** Facts about the sockets of a world *)



Lemma alive_positive (id : nat) (l : list Sock) (s : Sock) :
  nth_error l id = Some s ->
  (readyState s =? 3)%Z = false ->
  (1 <= alive l)%nat.
Proof.
  intros E H. pose proof (alive_set_readyState id 3 l s E) as Ha.
  rewrite H in Ha. simpl in Ha. lia.
Qed.

Lemma hooks_of_socket (w : World) (id : nat) (s : Sock) :
  hooks_ok w ->
  nth_error (socks w) id = Some s ->
  exists token, sock_conf s = _open_conf token.
Proof.
  intros H E. unfold hooks_ok in H. rewrite Forall_forall in H.
  apply H. eapply nth_error_In; eauto.
Qed.

Section Constants.

Variable JSON_parse : string -> option MessageStruct.



End Constants.

(** ** Rejected token, abnormal close *)

Section Lifecycle.

Variable JSON_parse : string -> option MessageStruct.



End Lifecycle.

(** ** The keepalive interval *)

Section Keepalive.

Variable JSON_parse : string -> option MessageStruct.


End Keepalive.


(** ** A manager without error callback *)

Lemma mute_effects_app (l1 l2 : list Effect) :
  mute_effects (l1 ++ l2) = mute_effects l1 ++ mute_effects l2.
Proof. apply filter_app. Qed.

Lemma host_mute (e : Effect) (w : World) :
  is_error_call e = false -> host e (mute w) = mute (host e w).
Proof.
  intros He. destruct e; try discriminate; unfold host, mute; simpl;
    try destruct (readyState_of (socks w) sock <? 2)%Z; simpl;
    rewrite ?mute_effects_app; reflexivity.
Qed.

Lemma perform_mute (es : list Effect) (w : World) :
  perform (mute_effects es) (mute w) = mute (perform es w).
Proof.
  revert w. induction es as [|e es IH]; intros w; [reflexivity|].
  change (perform (e :: es) w) with (perform es (host e w)).
  rewrite <- IH.
  change (mute_effects (e :: es))
    with (if negb (is_error_call e) then e :: mute_effects es
          else mute_effects es).
  destruct (is_error_call e) eqn:He; simpl.
  - f_equal. destruct e; try discriminate.
    unfold mute, host, add_log, mute_effects; simpl.
    rewrite filter_app. simpl. now rewrite app_nil_r.
  - now rewrite host_mute.
Qed.

Lemma finish_mute (w : World) (r : Completion (Veins * list Effect)) :
  finish (mute w) (mute_completion r) = mute (finish w r).
Proof.
  destruct r as [[v es]|x]; simpl.
  - apply (perform_mute es (set_veins v w)).
  - unfold mute, host, add_log, mute_effects; simpl.
    rewrite filter_app. reflexivity.
Qed.

Lemma subscribe_mute (rs : nat -> Z) (k : string) (c : messageCallback)
    (v : Veins) :
  subscribe rs k c (set_error None v) = mute_result (subscribe rs k c v).
Proof.
  unfold subscribe, mute_result. simpl.
  destruct (negb (key_in k (keys v))); simpl;
    destruct (socket v); simpl; try reflexivity;
    destruct (rs id =? 1)%Z; reflexivity.
Qed.

Lemma unsubscribe_mute (rs : nat -> Z) (k : string) (c : messageCallback)
    (v : Veins) :
  fst (unsubscribe rs k c (set_error None v))
  = mute_result (fst (unsubscribe rs k c v)).
Proof.
  unfold unsubscribe, mute_result. simpl.
  repeat (split_test; simpl); reflexivity.
Qed.

Lemma open_then_mute (b : bool) (n : nat) (t : Z) (token : string)
    (v : Veins) :
  _open_then b n t token (set_error None v)
  = mute_result (_open_then b n t token v).
Proof.
  unfold _open_then, WSHelper, mute_result. simpl.
  repeat (split_test; simpl); reflexivity.
Qed.

Lemma sockClose_mute (v : Veins) :
  _sockClose (set_error None v) = mute_result (_sockClose v).
Proof.
  unfold _sockClose, mute_result. simpl.
  repeat (split_test; simpl); reflexivity.
Qed.

Lemma handleMsg_mute (v : Veins) (m : MessageStruct) :
  handleMsg (set_error None v) m = mute_effects (handleMsg v m).
Proof.
  unfold handleMsg. simpl. destruct (Msg.error m).
  - now destruct (error v).
  - destruct (key_in _ _); auto.
    induction (get _ _); simpl; auto. now f_equal.
Qed.

Section Silent.

Variable JSON_parse : string -> option MessageStruct.

Lemma sockMessage_mute (v : Veins) (id : nat) (d : EventData) :
  _sockMessage JSON_parse (set_error None v) id d
  = mute_completion (_sockMessage JSON_parse v id d).
Proof.
  unfold _sockMessage, mute_completion, mute_result.
  destruct d as [s|b]; [|reflexivity].
  destruct (String.eqb s "authorized"); [reflexivity|].
  destruct (String.eqb s "pong"); [reflexivity|].
  destruct (JSON_parse s); [|reflexivity].
  simpl. now rewrite handleMsg_mute.
Qed.

Lemma loadend_mute (v : Veins) (result : string) :
  _sockMessage_loadend JSON_parse (set_error None v) result
  = mute_completion (_sockMessage_loadend JSON_parse v result).
Proof.
  unfold _sockMessage_loadend, mute_completion, mute_result.
  destruct (JSON_parse result); [|reflexivity].
  simpl. now rewrite handleMsg_mute.
Qed.

(** One step of the muted world is the muted step. *)
Lemma step_mute (ev : Event) (w : World) :
  step JSON_parse ev (mute w) = option_map mute (step JSON_parse ev w).
Proof.
  destruct ev; unfold step;
    cbn [mute veins socks promises timeouts readers intervals next_timer
         in_window].
  - rewrite subscribe_mute. unfold option_map. f_equal.
    apply (finish_mute w (Normal _)).
  - rewrite unsubscribe_mute. unfold option_map. f_equal.
    apply (finish_mute w (Normal _)).
  - destruct (promises w); [reflexivity|]. unfold option_map. f_equal.
    rewrite open_then_mute.
    apply (finish_mute (set_promises n w) (Normal _)).
  - destruct (promises w); reflexivity.
  - destruct (nth_error (socks w) id) as [s|]; [|reflexivity].
    destruct (readyState s =? 0)%Z; [|reflexivity].
    unfold hook_open.
    destruct (WSHelper_hook _ _) as [[t| |]| |]; try reflexivity;
      unfold option_map; f_equal;
      first [ exact (finish_mute (set_socks (set_readyState id 1 (socks w)) w)
                 (Normal (veins w, _sockOpen t id (veins w))))
      | exact (finish_mute (set_socks (set_readyState id 1 (socks w)) w)
                 (Normal (veins w, [console_log "websocket opened:"])))
      | exact (finish_mute (set_socks (set_readyState id 1 (socks w)) w)
                 (Normal (veins w, []))) ].
  - destruct (nth_error (socks w) id) as [s|]; [|reflexivity].
    destruct (readyState s =? 1)%Z; [|reflexivity].
    unfold hook_message.
    destruct (WSHelper_hook _ _) as [[t| |]| |]; try reflexivity;
      unfold option_map; f_equal;
      first [ rewrite sockMessage_mute; apply finish_mute
      | exact (finish_mute w
                 (Normal (veins w, [console_log "websocket message:"])))
      | exact (finish_mute w (Normal (veins w, []))) ].
  - destruct (nth_error (socks w) id) as [s|]; [|reflexivity].
    destruct (readyState s =? 3)%Z; [reflexivity|].
    unfold hook_error.
    destruct (WSHelper_hook _ _) as [h| |]; try reflexivity;
      unfold option_map; f_equal;
      first [ exact (finish_mute w
                 (Normal (veins w, [console_log "websocket error:"])))
      | exact (finish_mute w (Normal (veins w, []))) ].
  - destruct (nth_error (socks w) id) as [s|]; [|reflexivity].
    destruct (readyState s =? 3)%Z; [reflexivity|].
    unfold hook_close.
    destruct (WSHelper_hook _ _) as [[t| |]| |]; try reflexivity;
      unfold option_map; f_equal;
      first [ rewrite sockClose_mute;
        apply (finish_mute (set_socks _ w) (Normal _))
      | exact (finish_mute (set_socks (set_readyState id 3 (socks w)) w)
                 (Normal (veins w, [console_log "websocket closed:"])))
      | exact (finish_mute (set_socks (set_readyState id 3 (socks w)) w)
                 (Normal (veins w, []))) ].
  - destruct (existsb _ _); [|reflexivity]. unfold option_map. f_equal.
    rewrite loadend_mute. apply (finish_mute (set_readers _ w)).
  - destruct (existsb _ _); [|reflexivity]. unfold option_map. f_equal.
    unfold ping_tick. cbn [socket set_error].
    destruct (socket (veins w)) as [| |s];
      first [ exact (finish_mute w (Normal (veins w, [])))
            | exact (finish_mute w (Normal (veins w, [send s ping_msg]))) ].
  - destruct (timeouts w); [reflexivity|]. unfold option_map. f_equal.
    exact (finish_mute (set_timers (intervals w) (next_timer w) n w)
             (Normal (veins w, _open (veins w)))).
Qed.

Lemma run_mute (evs : list Event) (w : World) :
  run JSON_parse evs (mute w) = option_map mute (run JSON_parse evs w).
Proof.
  revert w. induction evs as [|ev evs IH]; intros w; simpl; auto.
  rewrite step_mute.
  destruct (step JSON_parse ev w) as [w1|]; simpl; auto.
Qed.

(** C10: a manager made without error callback runs every sequence of
    events as the manager made with one does, the calls of the error
    callback left out: the same events are possible, the fields other
    than [error], the sockets, the timers and the promises are the same,
    and the log is the same but for the [error_call]s, so the same
    exceptions reach the host; its log holds no call of an error
    callback. *)
Theorem no_error_callback_is_silent
    (supported : bool) (u : string) (a : authCallback)
    (f : errorCallback) (evs : list Event) :
  run JSON_parse evs (boot supported (constructor u a None))
  = option_map mute
      (run JSON_parse evs (boot supported (constructor u a (Some f))))
  /\ match run JSON_parse evs (boot supported (constructor u a None)) with
     | Some w => forall g m, ~ In (error_call g m) (log w)
     | None => True
     end.
Proof.
  assert (H : run JSON_parse evs (boot supported (constructor u a None))
              = option_map mute
                  (run JSON_parse evs
                       (boot supported (constructor u a (Some f))))).
  { rewrite <- run_mute. reflexivity. }
  split; [exact H|]. rewrite H. clear H.
  destruct (run JSON_parse evs _) as [w|]; simpl; [|exact I].
  intros g m Hin. unfold mute_effects in Hin.
  apply filter_In in Hin. destruct Hin as [_ Hin]. discriminate.
Qed.

End Silent.

(** ** The properties above at the sample worlds *)





(** * Further properties *)

(** ** unsubscribe: what it finds and what it removes *)

Lemma indexOf_split (c : messageCallback) (l : list messageCallback)
    (i : nat) :
  indexOf c l = Some i ->
  exists l1 l2,
    l = l1 ++ c :: l2 /\ ~ In c l1 /\ splice1 i l = l1 ++ l2.
Proof.
  revert i. induction l as [|f r IH]; simpl; intros i H; [discriminate|].
  destruct (Nat.eqb_spec c f) as [->|Hne].
  - injection H as <-. exists [], r. repeat split; auto.
  - destruct (indexOf c r) as [j|]; [|discriminate].
    injection H as <-.
    destruct (IH j eq_refl) as (l1 & l2 & -> & Hn & Hs).
    exists (f :: l1), l2. repeat split.
    + intros [H|H]; [congruence | contradiction].
    + unfold splice1 in *. simpl. f_equal. exact Hs.
Qed.

Lemma indexOf_None (c : messageCallback) (l : list messageCallback) :
  indexOf c l = None <-> ~ In c l.
Proof.
  induction l as [|f r IH]; simpl; [tauto|].
  destruct (Nat.eqb_spec c f) as [->|Hne].
  - split; [discriminate | intros H; exfalso; auto].
  - destruct (indexOf c r); simpl.
    + split; [discriminate|]. intros H.
      assert (Hr : ~ In c r) by (intros Hr; apply H; now right).
      apply IH in Hr. discriminate.
    + split; auto. intros _ [H|H]; [congruence|]. now apply IH.
Qed.

Lemma snd_unsubscribe (rs : nat -> Z) (k : string) (c : messageCallback)
    (v : Veins) :
  snd (unsubscribe rs k c v)
  = match indexOf c (get k (keys v)) with Some _ => true | None => false end.
Proof.
  unfold unsubscribe.
  destruct (key_in k (keys v)) eqn:Hin.
  - destruct (indexOf c (get k (keys v))) as [i|]; [|reflexivity].
    destruct (Nat.eqb _ 0); [|reflexivity].
    destruct (empty _); reflexivity.
  - now rewrite (key_in_false_get _ _ Hin).
Qed.

(** X1: [unsubscribe] returns [true] exactly when the callback is in the
    list of the key; when it is not (the key may be missing altogether),
    the fields are left as they are and no call is made. *)
Theorem unsubscribe_found_iff_registered
    (rs : nat -> Z) (key : string) (callback : messageCallback) (v : Veins) :
  (snd (unsubscribe rs key callback v) = true
   <-> In callback (get key (keys v)))
  /\ (~ In callback (get key (keys v)) ->
      unsubscribe rs key callback v = (v, [], false)).
Proof.
  split.
  - rewrite snd_unsubscribe.
    destruct (indexOf callback (get key (keys v))) as [i|] eqn:E.
    + split; auto. intros _.
      destruct (indexOf_split _ _ _ E) as (l1 & l2 & -> & _).
      apply in_or_app. right. now left.
    + split; [discriminate|]. intros H. apply indexOf_None in E.
      contradiction.
  - intros Hn. apply indexOf_None in Hn. unfold unsubscribe.
    destruct (key_in key (keys v)); [|reflexivity]. now rewrite Hn.
Qed.

Lemma indexOf_app (c : messageCallback) (l1 l2 : list messageCallback) :
  ~ In c l1 -> indexOf c (l1 ++ c :: l2) = Some (length l1).
Proof.
  induction l1 as [|f r IH]; simpl; intros H.
  - now rewrite Nat.eqb_refl.
  - destruct (Nat.eqb_spec c f) as [->|Hne]; [exfalso; auto|].
    rewrite IH by auto. reflexivity.
Qed.

Lemma splice1_app (c : messageCallback) (l1 l2 : list messageCallback) :
  splice1 (length l1) (l1 ++ c :: l2) = l1 ++ l2.
Proof.
  unfold splice1. induction l1 as [|f r IH]; simpl; [reflexivity|].
  now f_equal.
Qed.

Lemma obj_delete_obj_set (k : string) (l : list messageCallback) (o : Keys) :
  obj_delete k (obj_set k l o) = obj_delete k o.
Proof.
  induction o as [|[k' l'] r IH]; simpl.
  - now rewrite String.eqb_refl.
  - destruct (String.eqb k' k) eqn:E; simpl; rewrite E; simpl; auto.
    now rewrite IH.
Qed.




(** X2: a successful [unsubscribe] removes the first occurrence of the
    callback from the key's list and keeps the others in their order; the
    lists of the other keys are untouched. *)
Theorem unsubscribe_removes_first
    (rs : nat -> Z) (key : string) (callback : messageCallback) (v : Veins) :
  In callback (get key (keys v)) ->
  exists l1 l2,
    get key (keys v) = l1 ++ callback :: l2
    /\ ~ In callback l1
    /\ get key (keys (fst (fst (unsubscribe rs key callback v)))) = l1 ++ l2
    /\ forall k, k <> key ->
         get k (keys (fst (fst (unsubscribe rs key callback v))))
         = get k (keys v).
Proof.
  intros Hin. rewrite keys_unsubscribe.
  destruct (indexOf callback (get key (keys v))) as [i|] eqn:E.
  - destruct (indexOf_split _ _ _ E) as (l1 & l2 & Hl & Hn & Hs).
    exists l1, l2. rewrite Hs. repeat split; auto.
    + destruct (l1 ++ l2);
        [apply get_obj_delete_same | apply get_obj_set_same].
    + intros k Hk. destruct (l1 ++ l2).
      * rewrite get_obj_delete_other by auto. apply get_obj_set_other; auto.
      * apply get_obj_set_other; auto.
  - apply indexOf_None in E. contradiction.
Qed.

(** X3: when other callbacks stay on the key, [unsubscribe] only stores
    the shorter list: no frame is sent, no timer is cleared, nothing is
    closed. *)
Theorem unsubscribe_keeps_shared_key
    (rs : nat -> Z) (key : string) (callback : messageCallback) (v : Veins)
    (l1 l2 : list messageCallback) :
  get key (keys v) = l1 ++ callback :: l2 ->
  ~ In callback l1 ->
  l1 ++ l2 <> [] ->
  unsubscribe rs key callback v
  = (set_keys (obj_set key (l1 ++ l2) (keys v)) v, [], true).
Proof.
  intros Hl Hn Hne. unfold unsubscribe.
  destruct (key_in key (keys v)) eqn:Hin.
  - rewrite Hl, indexOf_app, splice1_app by assumption.
    destruct (l1 ++ l2); [contradiction | reflexivity].
  - rewrite (key_in_false_get _ _ Hin) in Hl. now destruct l1.
Qed.

(** X4: when the key's only callback goes but another key is
    registered, [unsubscribe] deletes the key and sends [untrack] if the
    socket's [readyState] is 1; [close], [ping] and [socket] keep their
    values and the socket is not closed. *)
Theorem unsubscribe_last_callback_other_keys
    (rs : nat -> Z) (key other : string) (callback : messageCallback)
    (v : Veins) :
  get key (keys v) = [callback] ->
  other <> key ->
  key_in other (keys v) = true ->
  unsubscribe rs key callback v
  = (set_keys (obj_delete key (keys v)) v,
     match socket v with
     | SObj id => if (rs id =? 1)%Z then [send id (untrack_msg key)] else []
     | _ => []
     end,
     true).
Proof.
  intros Hl Hne Hother. unfold unsubscribe.
  destruct (key_in key (keys v)) eqn:Hin.
  - rewrite Hl. simpl. rewrite Nat.eqb_refl. simpl.
    rewrite obj_delete_obj_set.
    assert (He : empty (obj_delete key (keys v)) = false).
    { destruct (obj_delete key (keys v)) eqn:E; [|reflexivity].
      apply key_in_iff_map in Hother.
      assert (Hd : In other (map fst (obj_delete key (keys v)))).
      { rewrite map_fst_obj_delete. apply filter_In. split; auto.
        destruct (String.eqb_spec other key); [contradiction | reflexivity]. }
      rewrite E in Hd. contradiction. }
    rewrite He. destruct v; reflexivity.
  - rewrite (key_in_false_get _ _ Hin) in Hl. discriminate.
Qed.


Lemma unsubscribe_removes_first_witness :
  exists l1 l2,
    get "k" (keys sample_veins) = l1 ++ 2%nat :: l2
    /\ ~ In 2%nat l1
    /\ get "k" (keys (fst (fst (unsubscribe (fun _ => 1%Z) "k" 2
                                             sample_veins))))
       = l1 ++ l2
    /\ forall k, k <> "k" ->
         get k (keys (fst (fst (unsubscribe (fun _ => 1%Z) "k" 2
                                            sample_veins))))
         = get k (keys sample_veins).
Proof.
  apply (unsubscribe_removes_first (fun _ => 1%Z) "k" 2 sample_veins).
  simpl. auto.
Defined.

Lemma unsubscribe_keeps_shared_key_witness :
  unsubscribe (fun _ => 1%Z) "k" 2 sample_veins
  = (set_keys (obj_set "k" ([1%nat] ++ []) (keys sample_veins))
              sample_veins, [], true).
Proof.
  apply (unsubscribe_keeps_shared_key (fun _ => 1%Z) "k" 2 sample_veins
           [1%nat] []).
  - reflexivity.
  - simpl. intros [H|[]]. discriminate.
  - discriminate.
Defined.

Lemma unsubscribe_last_callback_other_keys_witness :
  unsubscribe (fun _ => 1%Z) "j" 3 sample_veins
  = (set_keys (obj_delete "j" (keys sample_veins)) sample_veins,
     [send 0 (untrack_msg "j")], true).
Proof.
  apply (unsubscribe_last_callback_other_keys (fun _ => 1%Z) "j" "k" 3
           sample_veins).
  - reflexivity.
  - discriminate.
  - reflexivity.
Defined.


(** ** One connection at a time *)

Lemma readyState_of_set (id j : nat) (z : Z) (l : list Sock) :
  readyState_of (set_readyState id z l) j
  = if Nat.eqb j id && Nat.ltb j (length l) then z else readyState_of l j.
Proof.
  unfold readyState_of. revert id j.
  induction l as [|s r IH]; intros [|n] [|j]; simpl; auto;
    rewrite ?andb_false_r; auto.
Qed.

Lemma readyState_of_new (j : nat) (l : list Sock) (x : Sock) :
  readyState_of (l ++ [x]) j
  = if Nat.ltb j (length l) then readyState_of l j
    else if Nat.eqb j (length l) then readyState x else 3%Z.
Proof.
  unfold readyState_of.
  destruct (Nat.ltb_spec j (length l)).
  - now rewrite nth_error_app1.
  - rewrite nth_error_app2 by assumption.
    destruct (Nat.eqb_spec j (length l)) as [->|Hne].
    + now rewrite Nat.sub_diag.
    + destruct (j - length l)%nat as [|n] eqn:E; [lia|].
      simpl. now destruct n.
Qed.

Lemma readyState_of_nth (l : list Sock) (id : nat) (s : Sock) :
  nth_error l id = Some s -> readyState_of l id = readyState s.
Proof. unfold readyState_of. now intros ->. Qed.

Lemma alive_zero (l : list Sock) (id : nat) :
  alive l = 0%nat -> readyState_of l id = 3%Z.
Proof.
  intros H. unfold readyState_of.
  destruct (nth_error l id) as [s|] eqn:E; [|reflexivity].
  destruct (Z.eqb_spec (readyState s) 3) as [|Hne]; [assumption|].
  apply Z.eqb_neq in Hne. pose proof (alive_positive id l s E Hne). lia.
Qed.

Lemma alive_one (l : list Sock) (id : nat) :
  readyState_of l id <> 3%Z -> (1 <= alive l)%nat.
Proof.
  intros H. destruct (alive l) eqn:E; [|lia].
  now rewrite (alive_zero l id E) in H.
Qed.

Ltac current_done :=
  unfold current_ok, attempts_ok in *; simpl in *; split_tests;
  repeat match goal with
    | E : nth_error ?l ?id = Some ?s |- _ =>
        apply readyState_of_nth in E
    end;
  let j := fresh "j" in let Hj := fresh "Hj" in
  intros j Hj;
  rewrite ?readyState_of_set, ?readyState_of_new in Hj; simpl in Hj;
  repeat match goal with
    | H : context [if ?b then _ else _] |- _ => destruct b eqn:?
    end;
  simpl in *; Z_tests;
  repeat match goal with
    | H : _ /\ _ |- _ => destruct H
    | H : andb _ _ = true |- _ => apply andb_prop in H
    | H : Nat.eqb _ _ = true |- _ => apply Nat.eqb_eq in H; subst
    end;
  try congruence; try lia;
  try match goal with
    | Hc : forall id, readyState_of ?l id <> 3%Z -> socket ?v = SObj id,
      Hj : readyState_of ?l ?j <> 3%Z |- _ =>
        pose proof (Hc j Hj); pose proof (alive_one l j Hj)
    end;
  try match goal with
    | Hc : forall id, readyState_of ?l id <> 3%Z -> socket ?v = SObj id,
      Hi : readyState_of ?l ?i = _ |- _ =>
        let Hx := fresh in
        assert (Hx : readyState_of l i <> 3%Z) by (rewrite Hi; lia);
        pose proof (Hc i Hx); pose proof (alive_one l i Hx)
    end;
  try congruence; try lia;
  try (intuition (try congruence; try lia)).

Section Connection.

Variable JSON_parse : string -> option MessageStruct.

Lemma current_ok_step (ev : Event) (w w' : World) :
  step JSON_parse ev w = Some w' ->
  attempts_ok w -> current_ok w -> current_ok w'.
Proof.
  intros H Ha Hc. step_cases H; try solve [current_done].
  all: unfold current_ok in *; simpl; intros j Hj;
    rewrite readyState_of_set in Hj;
    assert (Hlt : (id < length (socks w))%nat)
      by (apply nth_error_Some; congruence);
    apply readyState_of_nth in Heqo; apply Z.eqb_neq in Heqb;
    assert (Hid : readyState_of (socks w) id <> 3%Z) by congruence;
    apply Hc in Hid;
    destruct (Nat.eqb_spec j id) as [Heq|Hne]; simpl in Hj;
    [ rewrite Heq in Hj; apply Nat.ltb_lt in Hlt; rewrite Hlt in Hj;
      congruence
    | apply Hc in Hj; congruence ].
Qed.

Lemma current_ok_run (evs : list Event) (w w' : World) :
  run JSON_parse evs w = Some w' ->
  attempts_ok w -> current_ok w -> current_ok w'.
Proof.
  revert w. induction evs as [|ev evs IH]; simpl; intros w Hrun Ha Hc.
  - now injection Hrun as <-.
  - destruct (step JSON_parse ev w) as [w1|] eqn:Hs; [|discriminate].
    eauto using current_ok_step, attempts_ok_step.
Qed.

Lemma current_ok_reach (supported : bool) (u : string) (a : authCallback)
    (e : option errorCallback) (evs : list Event) (w : World) :
  run JSON_parse evs (boot supported (constructor u a e)) = Some w ->
  current_ok w.
Proof.
  intros Hrun. apply (current_ok_run evs _ w Hrun).
  - split; simpl; [lia | auto].
  - intros id Hid. exfalso. apply Hid. unfold readyState_of. simpl.
    now destruct id.
Qed.

(** X6: in every world a manager can reach, live sockets, pending token
    fetches and pending reconnect timeouts number one at most in all; a
    socket whose close event is still to come is the one the [socket] field
    holds; and while [socket] is [null] nothing is live or pending. *)
Theorem one_connection_at_a_time
    (supported : bool) (u : string) (a : authCallback)
    (e : option errorCallback) (evs : list Event) (w : World) :
  run JSON_parse evs (boot supported (constructor u a e)) = Some w ->
  (alive (socks w) + promises w + timeouts w <= 1)%nat
  /\ (forall id,
        readyState_of (socks w) id <> 3%Z -> socket (veins w) = SObj id)
  /\ (socket (veins w) = SNull ->
      alive (socks w) = 0%nat /\ promises w = 0%nat /\ timeouts w = 0%nat).
Proof.
  intros Hrun.
  destruct (world_ok_reach JSON_parse _ _ _ _ _ _ Hrun)
    as (_ & [Hsum Hnull] & _ & _).
  repeat split; try apply Hnull; auto.
  apply (current_ok_reach _ _ _ _ _ _ Hrun).
Qed.

End Connection.

Lemma one_connection_at_a_time_witness :
  (alive (socks sample_open) + promises sample_open + timeouts sample_open
   <= 1)%nat
  /\ (forall id,
        readyState_of (socks sample_open) id <> 3%Z ->
        socket (veins sample_open) = SObj id)
  /\ (socket (veins sample_open) = SNull ->
      alive (socks sample_open) = 0%nat /\ promises sample_open = 0%nat
      /\ timeouts sample_open = 0%nat).
Proof.
  apply (one_connection_at_a_time (fun _ => None) true "wss://h" 0
           (Some 9%nat)
           [Call_subscribe "k" 1; Auth_resolve "t"; Sock_open 0;
            Sock_message 0 (Text "authorized")]
           sample_open).
  reflexivity.
Defined.

(** ** No WebSocket, error events, early close, binary frames *)

Lemma quiet_set_readyState (id : nat) (z : Z) (l : list Sock) :
  Forall (fun s => sock_debug s = false) l ->
  Forall (fun s => sock_debug s = false) (set_readyState id z l).
Proof.
  intros H. revert id. induction H as [|s r Hs Hr IH]; intros [|n]; simpl;
    constructor; auto.
Qed.

Ltac quiet_done :=
  unfold quiet_ok in *; simpl in *; split_tests;
  try assumption;
  try (apply quiet_set_readyState; assumption);
  try (apply Forall_app; split; [assumption|];
       constructor; [reflexivity | constructor]).



Section Events.

Variable JSON_parse : string -> option MessageStruct.

Lemma quiet_ok_step (ev : Event) (w w' : World) :
  step JSON_parse ev w = Some w' -> quiet_ok w -> quiet_ok w'.
Proof. intros H Hok. step_cases H; solve [quiet_done]. Qed.

Lemma quiet_ok_run (evs : list Event) (w w' : World) :
  run JSON_parse evs w = Some w' -> quiet_ok w -> quiet_ok w'.
Proof.
  revert w. induction evs as [|ev evs IH]; simpl; intros w Hrun Hok.
  - now injection Hrun as <-.
  - destruct (step JSON_parse ev w) as [w1|] eqn:Hs; [|discriminate].
    eauto using quiet_ok_step.
Qed.




(** X8: the manager gives [WSHelper] no error hook and no debug flag, so
    an error event of a socket changes nothing: neither the fields nor the
    host's side nor the log. *)
Theorem socket_error_event_is_ignored
    (supported : bool) (u : string) (a : authCallback)
    (e : option errorCallback) (evs : list Event) (w w' : World) (id : nat) :
  run JSON_parse evs (boot supported (constructor u a e)) = Some w ->
  step JSON_parse (Sock_error id) w = Some w' ->
  w' = w.
Proof.
  intros Hrun Hstep.
  destruct (world_ok_reach JSON_parse _ _ _ _ _ _ Hrun)
    as (_ & _ & Hhooks & _).
  assert (Hq : quiet_ok w).
  { apply (quiet_ok_run evs _ w Hrun). constructor. }
  unfold step in Hstep.
  destruct (nth_error (socks w) id) as [s|] eqn:E; [|discriminate].
  destruct (readyState s =? 3)%Z; [discriminate|].
  destruct (hooks_of_socket w id s Hhooks E) as [t0 Hconf].
  unfold quiet_ok in Hq. rewrite Forall_forall in Hq.
  assert (Hd : sock_debug s = false)
    by (apply Hq; eapply nth_error_In; eauto).
  unfold hook_error in Hstep. rewrite Hconf, Hd in Hstep. simpl in Hstep.
  injection Hstep as <-. now destruct w.
Qed.

(** X9: a socket that closes while [close] is true (before the server
    answered [authorized], or after the last key was removed) is not
    reconnected: [socket] becomes [null], the keys stay as they are, no
    socket is live, no token fetch or timeout is pending and no interval
    runs. *)
Theorem close_before_authorized_is_final
    (supported : bool) (u : string) (a : authCallback)
    (e : option errorCallback) (evs : list Event) (w w' : World) (id : nat) :
  run JSON_parse evs (boot supported (constructor u a e)) = Some w ->
  close (veins w) = true ->
  step JSON_parse (Sock_close id) w = Some w' ->
  socket (veins w') = SNull
  /\ keys (veins w') = keys (veins w)
  /\ alive (socks w') = 0%nat /\ promises w' = 0%nat /\ timeouts w' = 0%nat
  /\ intervals w' = []
  /\ log w'
     = log w ++ (if (ping (veins w) =? 0)%Z then []
                 else [clearInterval (ping (veins w))]).
Proof.
  intros Hrun Hclose Hstep.
  pose proof (world_ok_reach JSON_parse _ _ _ _ _ _ Hrun) as Hok.
  pose proof (world_ok_step JSON_parse _ _ _ Hstep Hok)
    as (Ht' & [_ Hnull] & _ & _).
  destruct Hok as ((_ & _ & Hint) & _ & Hhooks & _).
  unfold step in Hstep.
  destruct (nth_error (socks w) id) as [s|] eqn:E; [|discriminate].
  destruct (readyState s =? 3)%Z; [discriminate|].
  destruct (hooks_of_socket w id s Hhooks E) as [t0 Hconf].
  unfold hook_close, _sockClose in Hstep. rewrite Hconf, Hclose in Hstep.
  simpl in Hstep. injection Hstep as <-.
  assert (Hs : socket (veins (finish
                 (set_socks (set_readyState id 3 (socks w)) w)
                 (Normal (set_socket SNull (veins w),
                          if negb (ping (veins w) =? 0)%Z
                          then [clearInterval (ping (veins w))] else []))))
               = SNull).
  { simpl. now rewrite veins_perform. }
  destruct (Hnull Hs) as (Ha0 & Hp0 & Ht0).
  split; [exact Hs|]. split; [simpl; now rewrite veins_perform|].
  split; [exact Ha0|]. split; [exact Hp0|]. split; [exact Ht0|].
  destruct (Z.eqb_spec (ping (veins w)) 0) as [Hp|Hp]; simpl.
  - split; [|now rewrite app_nil_r].
    destruct Hint as [->|[Hne _]]; [reflexivity | contradiction].
  - split; [|reflexivity]. apply clear_running. intuition congruence.
Qed.

Lemma existsb_last (b : string) (l : list string) :
  existsb (String.eqb b) (l ++ [b]) = true.
Proof.
  rewrite existsb_app. simpl. rewrite String.eqb_refl.
  now rewrite orb_true_r.
Qed.

(** X10: a binary frame on an open socket is handed to a reader and
    changes no field; when the reader is done, its text goes to
    [JSON.parse] and then to [handleMsg], also when the text is
    "authorized" or "pong": binary frames never complete the handshake. *)
Theorem blob_frame_is_parsed_after_reading
    (supported : bool) (u : string) (a : authCallback)
    (e : option errorCallback) (evs : list Event) (w : World) (id : nat)
    (b : string) :
  run JSON_parse evs (boot supported (constructor u a e)) = Some w ->
  readyState_of (socks w) id = 1%Z ->
  exists w1 w2,
    step JSON_parse (Sock_message id (Blob b)) w = Some w1
    /\ veins w1 = veins w
    /\ log w1 = log w ++ [readAsText b]
    /\ step JSON_parse (Reader_loadend b) w1 = Some w2
    /\ veins w2 = veins w
    /\ log w2
       = log w1 ++ match JSON_parse b with
                   | Some m => handleMsg (veins w) m
                   | None => [uncaught SyntaxError]
                   end.
Proof.
  intros Hrun Hrs.
  destruct (world_ok_reach JSON_parse _ _ _ _ _ _ Hrun)
    as (_ & _ & Hhooks & _).
  unfold readyState_of in Hrs.
  destruct (nth_error (socks w) id) as [s|] eqn:E; [|discriminate].
  destruct (hooks_of_socket w id s Hhooks E) as [t0 Hconf].
  do 2 eexists. split.
  { unfold step. rewrite E, Hrs. unfold hook_message. rewrite Hconf.
    reflexivity. }
  split; [now destruct w|]. split; [reflexivity|]. split.
  { unfold step. simpl. rewrite existsb_last. reflexivity. }
  unfold _sockMessage_loadend. simpl.
  destruct (JSON_parse b) as [m|]; simpl.
  - rewrite veins_perform, log_perform. split; [now destruct w|reflexivity].
  - split; [now destruct w|reflexivity].
Qed.

End Events.


Lemma socket_error_event_is_ignored_witness : sample_open = sample_open.
Proof.
  apply (socket_error_event_is_ignored (fun _ => None) true "wss://h" 0
           (Some 9%nat)
           [Call_subscribe "k" 1; Auth_resolve "t"; Sock_open 0;
            Sock_message 0 (Text "authorized")]
           sample_open sample_open 0);
    reflexivity.
Defined.

Lemma close_before_authorized_is_final_witness :
  socket (veins sample_refused) = SNull
  /\ keys (veins sample_refused) = keys (veins sample_handshake)
  /\ alive (socks sample_refused) = 0%nat
  /\ promises sample_refused = 0%nat /\ timeouts sample_refused = 0%nat
  /\ intervals sample_refused = []
  /\ log sample_refused = log sample_handshake ++ [clearInterval 1].
Proof.
  apply (close_before_authorized_is_final (fun _ => None) true "wss://h" 0
           (Some 9%nat)
           [Call_subscribe "k" 1; Auth_resolve "t"; Sock_open 0]
           sample_handshake sample_refused 0);
    reflexivity.
Defined.

Lemma blob_frame_is_parsed_after_reading_witness :
  exists w1 w2,
    step (fun _ => None) (Sock_message 0 (Blob "authorized")) sample_handshake
    = Some w1
    /\ veins w1 = veins sample_handshake
    /\ log w1 = log sample_handshake ++ [readAsText "authorized"]
    /\ step (fun _ => None) (Reader_loadend "authorized") w1 = Some w2
    /\ veins w2 = veins sample_handshake
    /\ log w2 = log w1 ++ [uncaught SyntaxError].
Proof.
  apply (blob_frame_is_parsed_after_reading (fun _ => None) true "wss://h" 0
           (Some 9%nat)
           [Call_subscribe "k" 1; Auth_resolve "t"; Sock_open 0]
           sample_handshake 0 "authorized");
    reflexivity.
Defined.

(** ** After the registry empties *)



Section Cycle.

Variable JSON_parse : string -> option MessageStruct.




End Cycle.



(** ** The frames on the open socket and the registry *)

Lemma tracked_app (id : nat) (l es : list Effect) :
  tracked id (l ++ es) = fold_left (tracked_step id) es (tracked id l).
Proof. apply fold_left_app. Qed.

Lemma tracked_inert (id : nat) (es : list Effect) (view : list string) :
  forallb (fun e => match e with send _ _ => false | _ => true end) es = true ->
  fold_left (tracked_step id) es view = view.
Proof.
  revert view. induction es as [|e es IH]; simpl; intros view H; auto.
  apply andb_prop in H. destruct H as [He Hes].
  destruct e; try discriminate; simpl; auto.
Qed.

Lemma handleMsg_no_send (v : Veins) (m : MessageStruct) :
  forallb (fun e => match e with send _ _ => false | _ => true end)
          (handleMsg v m) = true.
Proof.
  unfold handleMsg. destruct (Msg.error m).
  - now destruct (error v).
  - destruct (key_in _ _); auto.
    induction (get _ _); simpl; auto.
Qed.

Lemma tracked_batch (token : string) (ks : list string) :
  flat_map (fun j => match frame_key "track" j with
                     | Some k => [k]
                     | None => []
                     end) (connect_msg token :: map track_msg ks) = ks.
Proof.
  simpl. induction ks as [|k ks IH]; simpl; auto. now f_equal.
Qed.

Lemma tracked_tracks (ks : list string) :
  flat_map (fun j => match frame_key "track" j with
                     | Some k => [k]
                     | None => []
                     end) (map track_msg ks) = ks.
Proof. induction ks as [|k ks IH]; simpl; auto. now f_equal. Qed.

Lemma readyState_of_out (l : list Sock) (i : nat) :
  (i <? length l)%nat = false -> readyState_of l i = 3%Z.
Proof.
  intros H. apply Nat.ltb_ge in H. unfold readyState_of.
  now rewrite (proj2 (nth_error_None l i) H).
Qed.

Lemma key_in_obj_set (k k' : string) (l : list messageCallback) (o : Keys) :
  key_in k' (obj_set k l o) = String.eqb k k' || key_in k' o.
Proof.
  unfold key_in. induction o as [|[k0 l0] r IH]; simpl.
  - reflexivity.
  - destruct (String.eqb_spec k0 k) as [->|Hne]; simpl.
    + destruct (String.eqb k k'); reflexivity.
    + rewrite IH. destruct (String.eqb k0 k'), (String.eqb k k'); reflexivity.
Qed.

Lemma key_in_obj_delete (k k' : string) (o : Keys) :
  key_in k' (obj_delete k o) = negb (String.eqb k k') && key_in k' o.
Proof.
  unfold key_in, obj_delete. induction o as [|[k0 l0] r IH]; simpl.
  - now rewrite andb_false_r.
  - destruct (String.eqb_spec k0 k) as [->|Hne]; simpl.
    + rewrite IH. destruct (String.eqb k k'); reflexivity.
    + rewrite IH. destruct (String.eqb_spec k0 k'), (String.eqb_spec k k');
        simpl; try reflexivity. congruence.
Qed.

Lemma In_Object_keys (k : string) (o : Keys) :
  In k (Object_keys o) <-> key_in k o = true.
Proof.
  rewrite key_in_iff_map. split; apply Permutation_in;
    [|symmetry]; apply Object_keys_perm.
Qed.

Ltac synced_prep :=
  unfold synced in *; simpl in *; split_tests;
  let i := fresh "i" in let Hs := fresh "Hsk" in let Hr := fresh "Hrs" in
  let k := fresh "k0" in
  intros i Hs Hr k;
  try discriminate;
  rewrite ?readyState_of_set, ?readyState_of_new in Hr;
  unfold tracked in *; rewrite ?fold_left_app; simpl;
  rewrite ?(tracked_inert _ _ _ (handleMsg_no_send _ _));
  try (injection Hs as Hs; subst);
  repeat match goal with
    | H : SObj ?a = SObj ?b |- _ =>
        tryif constr_eq a b then clear H else (injection H as H; subst a)
    | H1 : socket ?v = SObj ?a, H2 : socket ?v = SObj ?b |- _ =>
        tryif constr_eq a b then fail
        else (assert (a = b) by congruence; subst a)
    end;
  rewrite ?Nat.eqb_refl, ?Nat.ltb_irrefl in *; simpl in *;
  repeat match goal with
    | H : context [if ?b then _ else _] |- _ => destruct b eqn:?
    end;
  repeat match goal with
    | H : (_ <? _)%nat = false |- _ => apply readyState_of_out in H
    | H : andb _ _ = true |- _ => apply andb_prop in H; destruct H
    | H : Nat.eqb _ _ = true |- _ => apply Nat.eqb_eq in H; subst
    end;
  rewrite ?Nat.eqb_refl, ?Nat.ltb_irrefl in *; simpl in *;
  Z_tests; try congruence; try lia.

Ltac synced_view :=
  match goal with
  | Hsync : forall id, socket ?v = SObj id -> _, Hs : socket ?v = SObj ?i,
    Hr : readyState_of _ ?i = 1%Z |- _ <-> key_in ?k _ = true =>
      let Hv := fresh "Hv" in pose proof (Hsync i Hs Hr k) as Hv
  end.

Ltac synced_keys :=
  rewrite ?key_in_obj_delete, ?key_in_obj_set, ?tracked_batch,
    ?tracked_tracks;
  rewrite ?In_Object_keys, ?filter_In, ?andb_true_iff, ?orb_true_iff,
    ?negb_true_iff;
  simpl;
  repeat match goal with
    | |- context [String.eqb ?a ?b] => destruct (String.eqb_spec a b); subst
    end;
  simpl in *; try tauto; try (intuition congruence).

Section Sync.

Variable JSON_parse : string -> option MessageStruct.

Lemma synced_open (id : nat) (w w' : World) :
  step JSON_parse (Sock_open id) w = Some w' ->
  hooks_ok w -> synced w -> synced w'.
Proof.
  intros H Hh Hsync. unfold step in H.
  destruct (nth_error (socks w) id) as [s|] eqn:E; [|discriminate].
  destruct (readyState s =? 0)%Z; [|discriminate].
  destruct (hooks_of_socket w id s Hh E) as [t0 Hconf].
  unfold hook_open in H. rewrite Hconf in H. simpl in H.
  injection H as <-. synced_prep.
  - synced_keys.
  - destruct (Nat.eqb_spec id i) as [->|Hne];
      [synced_keys | synced_view; synced_keys].
Qed.

Lemma synced_step (ev : Event) (w w' : World) :
  step JSON_parse ev w = Some w' ->
  hooks_ok w -> synced w -> synced w'.
Proof.
  intros H Hh Hsync.
  assert (Hopen : forall id, ev = Sock_open id -> synced w').
  { intros id ->. eapply synced_open; eauto. }
  clear Hh.
  step_cases H; try (exact (Hopen _ eq_refl)); clear Hopen;
    synced_prep; try solve [auto];
    try solve [synced_view; synced_keys];
    try solve [synced_keys; reflexivity].
Qed.

Lemma synced_run (evs : list Event) (w w' : World) :
  run JSON_parse evs w = Some w' ->
  world_ok w -> synced w -> synced w'.
Proof.
  revert w. induction evs as [|ev evs IH]; simpl; intros w Hrun Hok Hs.
  - now injection Hrun as <-.
  - destruct (step JSON_parse ev w) as [w1|] eqn:Hst; [|discriminate].
    apply (IH w1 Hrun).
    + eapply world_ok_step; eauto.
    + eapply synced_step; eauto. apply Hok.
Qed.

(** X13: in every world a manager can reach, while a socket is open the
    frames sent on it so far, read in order (the array of the opening
    names the keys, [track] adds its key, [untrack] removes it), ask for
    exactly the keys that are registered. *)
Theorem open_socket_tracks_registry
    (supported : bool) (u : string) (a : authCallback)
    (e : option errorCallback) (evs : list Event) (w : World) (id : nat) :
  run JSON_parse evs (boot supported (constructor u a e)) = Some w ->
  readyState_of (socks w) id = 1%Z ->
  forall k, In k (tracked id (log w)) <-> key_in k (keys (veins w)) = true.
Proof.
  intros Hrun Hrs.
  assert (Hne : readyState_of (socks w) id <> 3%Z) by (rewrite Hrs; lia).
  pose proof (current_ok_reach JSON_parse _ _ _ _ _ _ Hrun id Hne) as Hsock.
  refine (synced_run evs _ w Hrun _ _ id Hsock Hrs).
  - split; [|split; [|split]].
    + repeat split; simpl; try lia. now left.
    + split; simpl; [lia | auto].
    + constructor.
    + constructor.
  - intros i Hs. discriminate.
Qed.

End Sync.

Lemma open_socket_tracks_registry_witness :
  readyState_of (socks sample_open) 0 = 1%Z
  /\ (In "k" (tracked 0 (log sample_open))
      <-> key_in "k" (keys (veins sample_open)) = true).
Proof.
  split; [reflexivity|].
  apply (open_socket_tracks_registry (fun _ => None) true "wss://h" 0
           (Some 9%nat)
           [Call_subscribe "k" 1; Auth_resolve "t"; Sock_open 0;
            Sock_message 0 (Text "authorized")]
           sample_open 0 eq_refl eq_refl "k").
Defined.

(** ** When [close] is false *)


Section Armed.

Variable JSON_parse : string -> option MessageStruct.





End Armed.

